(** * Frame width analysis of ANSI art: a model of [server/scripts/analyze-frames.py]

    The script reads text files, removes the SGR escape sequences
    [ESC '[' (digit | ';')* 'm'] from every line, prints the raw and the
    visible length of each line, and reports whether all non-empty lines
    have the same visible width.

    The model follows the script function by function.  Python strings are
    lists of code points, Python integers are [Z], [print] appends to an
    explicit standard output, and exceptions are values of a sum type. *)

From Equations Require Import Equations.
From Stdlib Require Import String Ascii DecimalString.
From Stdlib Require Import List NArith ZArith Lia Bool Permutation.
Import ListNotations.

(** ** Python strings *)

Module Py.

(** A character is a Unicode code point; a [str] is a sequence of them. *)
Abbreviation char := N (only parsing).
Abbreviation str := (list N) (only parsing).

(** An ASCII literal as a [str]. *)
Definition u (s : string) : str := map N_of_ascii (list_ascii_of_string s).

Definition ESC : char := 27%N.
Definition LF : char := 10%N.
Definition CR : char := 13%N.

(** [len(x)] *)
Definition len {A} (x : list A) : Z := Z.of_nat (length x).

(** [c in chars] *)
Definition contains (chars : str) (c : char) : bool := existsb (N.eqb c) chars.

(** [s.rstrip(chars)]: the characters of [chars] are dropped from the end
    of [s] for as long as the last one is in [chars]. *)
Fixpoint drop_while (p : char -> bool) (s : str) : str :=
  match s with
  | [] => []
  | c :: s' => if p c then drop_while p s' else s
  end.

Definition rstrip (chars : str) (s : str) : str :=
  rev (drop_while (contains chars) (rev s)).

(** [s[:n]] for a non-negative [n] *)
Definition prefix (n : nat) (s : str) : str := firstn n s.

(** Truth value of a sequence: [if xs:] *)
Definition truthy {A} (xs : list A) : bool :=
  match xs with [] => false | _ :: _ => true end.

(** [enumerate(xs, start)] *)
Fixpoint enumerate {A} (xs : list A) (start : Z) : list (Z * A) :=
  match xs with
  | [] => []
  | x :: xs' => (start, x) :: enumerate xs' (start + 1)
  end.

(** [str(z)] and the format specification [{z:<width>d}]: decimal digits,
    right-aligned in a field that is at least [width] wide. *)
Definition str_of_int (z : Z) : str := u (NilZero.string_of_int (Z.to_int z)).

Definition format_d (width : nat) (z : Z) : str :=
  let digits := str_of_int z in
  repeat 32%N (width - length digits) ++ digits.

(** Exceptions carry the text that [str(e)] gives. *)
Record Exception := { message : str }.

Definition ValueError_empty : Exception :=
  {| message := u "min() arg is an empty sequence" |}.

Definition ValueError_empty_max : Exception :=
  {| message := u "max() arg is an empty sequence" |}.

(** [min(xs)] and [max(xs)] raise [ValueError] on an empty list. *)
Definition min (xs : list Z) : Exception + Z :=
  match xs with
  | [] => inl ValueError_empty
  | x :: xs' => inr (fold_left Z.min xs' x)
  end.

Definition max (xs : list Z) : Exception + Z :=
  match xs with
  | [] => inl ValueError_empty_max
  | x :: xs' => inr (fold_left Z.max xs' x)
  end.

(** Text-mode reading with the default [newline=None]: ["\r\n"] and a lone
    ["\r"] reach the program as ["\n"]. *)
Fixpoint universal_newlines (s : str) : str :=
  match s with
  | [] => []
  | c :: s' =>
      if (c =? CR)%N then
        match s' with
        | c' :: s'' =>
            if (c' =? LF)%N then LF :: universal_newlines s''
            else LF :: universal_newlines s'
        | [] => [LF]
        end
      else c :: universal_newlines s'
  end.

(** The lines of a text, each with its terminating ["\n"] (the last line
    has none when the text does not end in one). *)
Fixpoint split_lines (s : str) : list str :=
  match s with
  | [] => []
  | c :: s' =>
      if (c =? LF)%N then [c] :: split_lines s'
      else match split_lines s' with
           | [] => [[c]]
           | l :: ls => (c :: l) :: ls
           end
  end.

(** [f.readlines()] on the decoded content of a file *)
Definition readlines (content : str) : list str :=
  split_lines (universal_newlines content).

End Py.
Import Py.

(** ** The fragment of [re] that the script uses

    A pattern is a sequence of character classes, each taken once or
    repeated greedily ([*]).  Matching is by backtracking, as in [re]: a
    starred class first takes as many characters as it can and gives them
    back one at a time while the rest of the pattern fails. *)

Module Re.

Inductive quantifier := Once | ZeroOrMore.

Record atom := Atom { accepts : char -> bool; quant : quantifier }.

Definition regex := list atom.

(** [match_here re text] matches [re] at the start of [text] and gives
    the matched text and the rest of [text]. *)
Fixpoint match_here (re : regex) (text : str) : option (str * str) :=
  match re with
  | [] => Some ([], text)
  | Atom cls Once :: re' =>
      match text with
      | c :: text' =>
          if cls c then
            match match_here re' text' with
            | Some (w, rest) => Some (c :: w, rest)
            | None => None
            end
          else None
      | [] => None
      end
  | Atom cls ZeroOrMore :: re' =>
      (fix star (text : str) : option (str * str) :=
         match text with
         | c :: text' =>
             if cls c then
               match star text' with
               | Some (w, rest) => Some (c :: w, rest)
               | None => match_here re' text
               end
             else match_here re' text
         | [] => match_here re' text
         end) text
  end.

(** A match is a prefix of the text; the scans below terminate by it. *)
Lemma match_here_app re : forall text w rest,
  match_here re text = Some (w, rest) -> text = w ++ rest.
Proof.
  induction re as [|[cls [|]] re IH]; intros text w rest; simpl.
  - intros [= <- <-]. reflexivity.
  - destruct text as [|c text]; [discriminate|].
    destruct (cls c); [|discriminate].
    destruct (match_here re text) as [[w' r']|] eqn:E; [|discriminate].
    intros [= <- <-]. simpl. f_equal. now apply IH.
  - revert w rest. induction text as [|c text IHt]; intros w rest.
    + apply IH.
    + destruct (cls c); [|apply IH].
      match goal with
      | |- context [match ?f text with _ => _ end] =>
          destruct (f text) as [[w' r']|] eqn:E
      end.
      * intros [= <- <-]. simpl. f_equal. now apply IHt.
      * apply IH.
Qed.

Definition inspect {A} (a : A) : {b | a = b} := exist _ a eq_refl.

(** [re.sub(re, repl, text)] for a replacement without group references:
    the text is scanned from the left; where the pattern matches, the
    replacement is emitted and the scan goes on after the match; elsewhere
    the character is copied.  The script's pattern starts with a literal
    character, so the rules of [re] for empty matches are not part of the
    model: an empty match counts as none. *)
Equations? sub (re : regex) (repl text : str) : str by wf (length text) lt :=
  sub re repl [] := [];
  sub re repl (c :: text') with inspect (match_here re (c :: text')) := {
    | exist _ (Some (_ :: _, rest)) e := repl ++ sub re repl rest;
    | exist _ _ e := c :: sub re repl text' }.
Proof.
  apply match_here_app in e. apply (f_equal (@length _)) in e.
  rewrite length_app in e. simpl in *. lia.
Qed.

(** [re.findall(re, text)] for a pattern without groups: the matched
    texts of the same left-to-right scan. *)
Equations? findall (re : regex) (text : str) : list str by wf (length text) lt :=
  findall re [] := [];
  findall re (c :: text') with inspect (match_here re (c :: text')) := {
    | exist _ (Some (m :: w, rest)) e := (m :: w) :: findall re rest;
    | exist _ _ e := findall re text' }.
Proof.
  apply match_here_app in e. apply (f_equal (@length _)) in e.
  rewrite length_app in e. simpl in *. lia.
Qed.

End Re.

(** ** The script *)

(** [[0-9;]] *)
Definition is_param (c : char) : bool :=
  ((48 <=? c)%N && (c <=? 57)%N) || (c =? 59)%N.

(** [r'\x1b\[[0-9;]*m'] *)
Definition SGR : Re.regex :=
  [ Re.Atom (N.eqb 27) Re.Once;
    Re.Atom (N.eqb 91) Re.Once;
    Re.Atom is_param Re.ZeroOrMore;
    Re.Atom (N.eqb 109) Re.Once ].

(** [strip_ansi(text)]: remove ANSI escape codes *)
Definition strip_ansi (text : str) : str := Re.sub SGR [] text.

(** What the first loop of [analyze_frame] computes for one line. *)
Record line_record := {
  raw_len : Z;
  stripped : str;
  visual_len : Z;
  ansi_codes : Z
}.

Definition analyze_line (line : str) : line_record :=
  let line := rstrip [LF; CR] line in
  let raw_len := len line in
  let stripped := strip_ansi line in
  let visual_len := len stripped in
  let ansi_codes := len (Re.findall SGR line) in
  {| raw_len := raw_len; stripped := stripped;
     visual_len := visual_len; ansi_codes := ansi_codes |}.

(** The second loop: the visible widths of the lines that are not empty
    after stripping, appended one by one. *)
Definition visual_widths_step (visual_widths : list Z) (line : str) : list Z :=
  let line := rstrip [LF; CR] line in
  let stripped := strip_ansi line in
  if truthy stripped then visual_widths ++ [len stripped] else visual_widths.

Definition visual_widths (lines : list str) : list Z :=
  fold_left visual_widths_step lines [].

(** *** Standard output *)

(** One constructor for each [print] call of the script. *)
Inductive print_call :=
| Header (filename : str)
| LineReport (i raw_len visual_len ansi_codes : Z) (shown : str)
| WidthRange (min_width max_width : Z)
| InconsistentWidth (difference : Z)
| ConsistentWidth
| ErrorAnalyzing (filename : str) (cause : str).

(** The text that the call writes (before the newline [print] adds). *)
Definition render (p : print_call) : str :=
  match p with
  | Header filename =>
      [LF] ++ u "=== Analyzing " ++ filename ++ u " ===" ++ [LF]
  | LineReport i raw visual ansi shown =>
      u "Line " ++ format_d 2 i ++ u ": raw=" ++ format_d 3 raw ++
      u ", visual=" ++ format_d 3 visual ++ u ", ansi=" ++ format_d 2 ansi ++
      u " | " ++ shown
  | WidthRange min_width max_width =>
      [LF] ++ u "Width range: " ++ str_of_int min_width ++ u " - " ++
      str_of_int max_width ++ u " characters"
  | InconsistentWidth difference =>
      [9888%N; 65039%N] ++ u "  INCONSISTENT WIDTH: " ++ str_of_int difference ++
      u " character difference"
  | ConsistentWidth => [10003%N] ++ u " Consistent width"
  | ErrorAnalyzing filename cause =>
      u "Error analyzing " ++ filename ++ u ": " ++ cause
  end.

Definition stdout := list print_call.

(** *** Effects: output and exceptions *)

Definition IO (A : Type) : Type := stdout -> stdout * (Exception + A).

Definition ret {A} (a : A) : IO A := fun out => (out, inr a).

Definition bind {A B} (m : IO A) (k : A -> IO B) : IO B :=
  fun out =>
    match m out with
    | (out', inr a) => k a out'
    | (out', inl e) => (out', inl e)
    end.

Definition lift {A} (r : Exception + A) : IO A := fun out => (out, r).

(** [print] on a standard output that accepts every text; [print_on] below
    is [print] on a standard output that can refuse one. *)
Definition print (p : print_call) : IO unit := fun out => (out ++ [p], inr tt).

(** [try: body except Exception as e: handler(e)] *)
Definition try_except (body : IO unit) (handler : Exception -> IO unit) : IO unit :=
  fun out =>
    match body out with
    | (out', inr tt) => (out', inr tt)
    | (out', inl e) => handler e out'
    end.

Notation "x <- m ;; k" := (bind m (fun x => k))
  (at level 61, m at next level, right associativity).
Notation "m ;;; k" := (bind m (fun _ => k))
  (at level 61, right associativity).

(** [for x in xs: body(x)] *)
Fixpoint for_each {A} (xs : list A) (body : A -> IO unit) : IO unit :=
  match xs with
  | [] => ret tt
  | x :: xs' => body x ;;; for_each xs' body
  end.

(** What [open(filename, 'r', encoding='utf-8')] followed by reading gives:
    the decoded content, or the exception of a file that is missing,
    unreadable or not UTF-8. *)
Definition filesystem := str -> Exception + str.

Definition open_readlines (fs : filesystem) (filename : str) : IO (list str) :=
  content <- lift (fs filename) ;;
  ret (readlines content).

(** The report on the widths, after the two loops. *)
Definition report_widths (visual_widths : list Z) : IO unit :=
  if truthy visual_widths then
    min_width <- lift (Py.min visual_widths) ;;
    max_width <- lift (Py.max visual_widths) ;;
    print (WidthRange min_width max_width) ;;;
    if negb (min_width =? max_width)%Z then
      print (InconsistentWidth (max_width - min_width))
    else
      print ConsistentWidth
  else ret tt.

Definition report_line (i : Z) (line : str) : IO unit :=
  let r := analyze_line line in
  print (LineReport i (raw_len r) (visual_len r) (ansi_codes r)
           (prefix 60 (stripped r))).

(** [analyze_frame(filename)] on the lines already read *)
Definition analyze_lines (filename : str) (lines : list str) : IO unit :=
  print (Header filename) ;;;
  for_each (enumerate lines 1) (fun '(i, line) => report_line i line) ;;;
  report_widths (visual_widths lines).

Definition analyze_frame (fs : filesystem) (filename : str) : IO unit :=
  lines <- open_readlines fs filename ;;
  analyze_lines filename lines.

Definition default_files : list str :=
  [u "data/ansi/welcome.ans"; u "data/ansi/goodbye.ans"].

(** The [__main__] block; [argv] is [sys.argv]. *)
Definition files_of_argv (argv : list str) : list str :=
  if (1 <? len argv)%Z then skipn 1 argv else default_files.

Definition process_files (fs : filesystem) (files : list str) : IO unit :=
  for_each files (fun filename =>
    try_except (analyze_frame fs filename)
      (fun e => print (ErrorAnalyzing filename (message e)))).

Definition main (fs : filesystem) (argv : list str) : IO unit :=
  process_files fs (files_of_argv argv).


(** *** A standard output that can refuse a text

    [print] writes its text to [sys.stdout], which raises
    [UnicodeEncodeError] for a text that its encoding cannot express (a path
    with a lone surrogate on a strict UTF-8 terminal, the glyphs of the
    verdict on an ASCII one).  A [console] gives the exception that writing
    a text raises, if any; nothing of a refused text is written.  The
    functions below are those of the script above with this [print]. *)
Definition console := str -> option Exception.

Definition print_on (con : console) (p : print_call) : IO unit :=
  fun out =>
    match con (render p) with
    | None => (out ++ [p], inr tt)
    | Some e => (out, inl e)
    end.

Definition report_widths_on (con : console) (visual_widths : list Z) : IO unit :=
  if truthy visual_widths then
    min_width <- lift (Py.min visual_widths) ;;
    max_width <- lift (Py.max visual_widths) ;;
    print_on con (WidthRange min_width max_width) ;;;
    if negb (min_width =? max_width)%Z then
      print_on con (InconsistentWidth (max_width - min_width))
    else
      print_on con ConsistentWidth
  else ret tt.

Definition report_line_on (con : console) (i : Z) (line : str) : IO unit :=
  let r := analyze_line line in
  print_on con (LineReport i (raw_len r) (visual_len r) (ansi_codes r)
                  (prefix 60 (stripped r))).

Definition analyze_lines_on (con : console) (filename : str) (lines : list str)
  : IO unit :=
  print_on con (Header filename) ;;;
  for_each (enumerate lines 1) (fun '(i, line) => report_line_on con i line) ;;;
  report_widths_on con (visual_widths lines).

Definition analyze_frame_on (con : console) (fs : filesystem) (filename : str)
  : IO unit :=
  lines <- open_readlines fs filename ;;
  analyze_lines_on con filename lines.

Definition process_files_on (con : console) (fs : filesystem) (files : list str)
  : IO unit :=
  for_each files (fun filename =>
    try_except (analyze_frame_on con fs filename)
      (fun e => print_on con (ErrorAnalyzing filename (message e)))).

Definition main_on (con : console) (fs : filesystem) (argv : list str) : IO unit :=
  process_files_on con fs (files_of_argv argv).

(** ** Vocabulary of the specification *)

(** The texts of the pattern: ESC, '[', any digits and semicolons, 'm'. *)
Definition is_sgr (w : str) : Prop :=
  exists ps, w = 27%N :: 91%N :: ps ++ [109%N] /\ forallb is_param ps = true.

(** [s] begins with an escape sequence of the pattern. *)
Definition starts_escape (s : str) : Prop :=
  exists w rest, s = w ++ rest /\ is_sgr w.

(** Position [i] of [s] belongs to an occurrence of the pattern in [s]. *)
Definition in_escape (s : str) (i : nat) : Prop :=
  exists pre w post,
    s = pre ++ w ++ post /\ is_sgr w /\
    (length pre <= i < length pre + length w)%nat.

(** [s] contains no occurrence of the pattern. *)
Definition escape_free (s : str) : Prop :=
  forall pre w post, s = pre ++ w ++ post -> ~ is_sgr w.

(** The characters of [s] at the positions where [mask] is [true]. *)
Fixpoint select (mask : list bool) (s : str) : str :=
  match mask, s with
  | b :: mask', c :: s' => if b then c :: select mask' s' else select mask' s'
  | _, _ => []
  end.

(** [t] is [s] with some characters left out. *)
Inductive subsequence : str -> str -> Prop :=
| subseq_nil : subsequence [] []
| subseq_keep c t s : subsequence t s -> subsequence (c :: t) (c :: s)
| subseq_drop c t s : subsequence t s -> subsequence t (c :: s).

(** A text cut into segments: escape sequences and other text. *)
Inductive segment :=
| Text (t : str)
| Escape (w : str).

Definition segment_ok (g : segment) : Prop :=
  match g with
  | Text _ => True
  | Escape w => is_sgr w
  end.

Fixpoint concat_segments (segs : list segment) : str :=
  match segs with
  | [] => []
  | Text t :: segs' => t ++ concat_segments segs'
  | Escape w :: segs' => w ++ concat_segments segs'
  end.

Fixpoint text_of (segs : list segment) : str :=
  match segs with
  | [] => []
  | Text t :: segs' => t ++ text_of segs'
  | Escape _ :: segs' => text_of segs'
  end.

Fixpoint escapes_of (segs : list segment) : list str :=
  match segs with
  | [] => []
  | Text _ :: segs' => escapes_of segs'
  | Escape w :: segs' => w :: escapes_of segs'
  end.

(** The stretches of text between the escape segments: text segments that
    follow one another form one stretch; [run] is the stretch so far. *)
Fixpoint text_runs (run : str) (segs : list segment) : list str :=
  match segs with
  | [] => [run]
  | Text t :: segs' => text_runs (run ++ t) segs'
  | Escape _ :: segs' => run :: text_runs [] segs'
  end.

(** The characters that [rstrip] takes from the end of a line. *)
Definition is_newline (c : char) : Prop := c = LF \/ c = CR.

(** The total length of the matches that the scan of [s] finds. *)
Definition matched_chars (s : str) : Z :=
  fold_right (fun w n => (len w + n)%Z) 0%Z (Re.findall SGR s).

(** The calls that report on the widths of a file. *)
Definition is_width_report (p : print_call) : bool :=
  match p with
  | WidthRange _ _ | InconsistentWidth _ | ConsistentWidth => true
  | _ => false
  end.

(** [m] is the least (greatest) element of [xs]. *)
Definition is_minimum (m : Z) (xs : list Z) : Prop :=
  In m xs /\ forall x, In x xs -> (m <= x)%Z.

Definition is_maximum (m : Z) (xs : list Z) : Prop :=
  In m xs /\ forall x, In x xs -> (x <= m)%Z.

(** The output of a computation started on an empty standard output. *)
Definition output_of {A} (m : IO A) : stdout := fst (m []).

(** The report line of the first loop for the [i]-th line. *)
Definition line_report_of (p : Z * str) : print_call :=
  let (i, line) := p in
  let r := analyze_line line in
  LineReport i (raw_len r) (visual_len r) (ansi_codes r) (prefix 60 (stripped r)).

(** What [report_widths] prints. *)
Definition width_report (visual_widths : list Z) : stdout :=
  match visual_widths with
  | [] => []
  | x :: xs =>
      let min_width := fold_left Z.min xs x in
      let max_width := fold_left Z.max xs x in
      [ WidthRange min_width max_width;
        if (min_width =? max_width)%Z then ConsistentWidth
        else InconsistentWidth (max_width - min_width) ]
  end.

(** What the report on a file's lines prints. *)
Definition lines_report (filename : str) (lines : list str) : stdout :=
  Header filename :: map line_report_of (enumerate lines 1) ++
  width_report (visual_widths lines).

(** What the driver prints for one path. *)
Definition file_output (fs : filesystem) (filename : str) : stdout :=
  match fs filename with
  | inl e => [ErrorAnalyzing filename (message e)]
  | inr content => lines_report filename (readlines content)
  end.

(** The tail of the pattern: [[0-9;]*m]. *)
Definition params_m : Re.regex :=
  [Re.Atom is_param Re.ZeroOrMore; Re.Atom (N.eqb 109) Re.Once].

(** The string ESC '[' ESC '[' '0' 'm' 'm': removing the escape sequence in
    its middle leaves the escape sequence ESC '[' 'm'. *)
Definition nested_escape : str := [27; 91; 27; 91; 48; 109; 109]%N.

(** The two lines of the end-to-end example: ESC "[31mAB" ESC "[0m\n" and
    "CD\n". *)
Definition line_1 : str := 27%N :: u "[31mAB" ++ 27%N :: u "[0m" ++ [LF].
Definition line_2 : str := u "CD" ++ [LF].

(** The characters that occur in the texts of the pattern. *)
Definition sgr_alphabet (c : char) : bool :=
  (c =? 27)%N || (c =? 91)%N || is_param c || (c =? 109)%N.

(** [strip_ansi] applied [n] times. *)
Fixpoint strip_times (n : nat) (s : str) : str :=
  match n with
  | O => s
  | S n' => strip_times n' (strip_ansi s)
  end.

(** The line reports among the print calls. *)
Definition is_line_report (p : print_call) : bool :=
  match p with
  | LineReport _ _ _ _ _ => true
  | _ => false
  end.

(** The print calls [ps], in order, on a standard output that can refuse
    one of them. *)
Definition write_all (con : console) (ps : list print_call) : IO unit :=
  for_each ps (print_on con).

(** A strict UTF-8 standard output: it refuses the texts with the lone
    surrogate U+DCFF, which is what the byte 0xFF of a command-line argument
    becomes in [sys.argv]. *)
Definition surrogate : char := 56575%N.

Definition UnicodeEncodeError : Exception :=
  {| message := u "'utf-8' codec can't encode character: surrogates not allowed" |}.

Definition strict_utf8 : console :=
  fun text => if contains text surrogate then Some UnicodeEncodeError else None.

(** A directory without the files that are asked for. *)
Definition no_files : filesystem :=
  fun _ => inl {| message := u "No such file or directory" |}.

(** ** The matcher on the script's pattern *)

Section Matcher.

Import Re.

Lemma match_once cls re c t :
  match_here (Atom cls Once :: re) (c :: t) =
  if cls c then
    match match_here re t with
    | Some (w, rest) => Some (c :: w, rest)
    | None => None
    end
  else None.
Proof. reflexivity. Qed.

Lemma match_star cls re c t :
  match_here (Atom cls ZeroOrMore :: re) (c :: t) =
  if cls c then
    match match_here (Atom cls ZeroOrMore :: re) t with
    | Some (w, rest) => Some (c :: w, rest)
    | None => match_here re (c :: t)
    end
  else match_here re (c :: t).
Proof. reflexivity. Qed.

Lemma match_star_nil cls re :
  match_here (Atom cls ZeroOrMore :: re) [] = match_here re [].
Proof. reflexivity. Qed.

Lemma is_param_not_m c : is_param c = true -> (109 =? c)%N = false.
Proof.
  intros H. destruct (N.eqb_spec 109 c) as [<-|]; [discriminate H|reflexivity].
Qed.

Lemma is_param_not_esc c : is_param c = true -> c <> ESC.
Proof. intros H ->. discriminate H. Qed.

Lemma params_m_complete ps rest :
  forallb is_param ps = true ->
  match_here params_m (ps ++ 109%N :: rest) = Some (ps ++ [109%N], rest).
Proof.
  induction ps as [|p ps IH]; intros H.
  - reflexivity.
  - simpl in H. apply andb_prop in H as [Hp Hps].
    simpl app. unfold params_m in *. rewrite match_star, Hp, (IH Hps).
    reflexivity.
Qed.

Lemma params_m_sound t : forall w rest,
  match_here params_m t = Some (w, rest) ->
  exists ps, w = ps ++ [109%N] /\ forallb is_param ps = true.
Proof.
  unfold params_m.
  induction t as [|c t IH]; intros w rest.
  - discriminate.
  - rewrite match_star. destruct (is_param c) eqn:Hc.
    + destruct (match_here _ t) as [[w' r']|] eqn:E.
      * intros [= <- <-]. destruct (IH _ _ eq_refl) as (ps & -> & Hps).
        exists (c :: ps). simpl. now rewrite Hc, Hps.
      * rewrite match_once, (is_param_not_m _ Hc). discriminate.
    + rewrite match_once. destruct (N.eqb_spec 109 c) as [<-|]; [|discriminate].
      intros [= <- <-]. now exists [].
Qed.

(** The matcher accepts exactly the texts of the pattern. *)
Lemma sgr_complete w rest :
  is_sgr w -> match_here SGR (w ++ rest) = Some (w, rest).
Proof.
  intros (ps & -> & Hps). unfold SGR. simpl app.
  rewrite !match_once. simpl N.eqb. cbv iota.
  rewrite <- app_assoc. simpl app.
  fold params_m. now rewrite (params_m_complete ps rest Hps).
Qed.

Lemma sgr_sound text w rest :
  match_here SGR text = Some (w, rest) -> is_sgr w /\ text = w ++ rest.
Proof.
  intros H. split; [|now apply match_here_app in H].
  unfold SGR in H. destruct text as [|c1 [|c2 t]]; try discriminate.
  - rewrite match_once in H. destruct (27 =? c1)%N; discriminate.
  - rewrite !match_once in H.
    destruct (N.eqb_spec 27 c1) as [<-|]; [|discriminate].
    destruct (N.eqb_spec 91 c2) as [<-|]; [|discriminate].
    fold params_m in H.
    destruct (match_here params_m t) as [[w' r']|] eqn:E; [|discriminate].
    injection H as <- <-.
    destruct (params_m_sound _ _ _ E) as (ps & -> & Hps).
    now exists ps.
Qed.

Lemma sgr_none text :
  match_here SGR text = None <-> ~ starts_escape text.
Proof.
  split.
  - intros H (w & rest & -> & Hw). now rewrite sgr_complete in H.
  - intros H. destruct (match_here SGR text) as [[w rest]|] eqn:E; [|reflexivity].
    destruct (sgr_sound _ _ _ E) as [Hw ->]. exfalso. apply H. now exists w, rest.
Qed.

(** At one place the pattern matches in one way only. *)
Lemma sgr_unique w1 r1 w2 r2 :
  is_sgr w1 -> is_sgr w2 -> w1 ++ r1 = w2 ++ r2 -> w1 = w2 /\ r1 = r2.
Proof.
  intros H1 H2 E. pose proof (sgr_complete w1 r1 H1) as M1.
  rewrite E, (sgr_complete w2 r2 H2) in M1. now injection M1.
Qed.

Lemma starts_escape_dec s : {starts_escape s} + {~ starts_escape s}.
Proof.
  destruct (match_here SGR s) as [[w rest]|] eqn:E.
  - left. destruct (sgr_sound _ _ _ E) as [Hw ->]. now exists w, rest.
  - right. now apply sgr_none.
Qed.

End Matcher.

(** ** The two scans on the script's pattern *)

Section Scan.

Lemma sub_cons re repl c t :
  Re.sub re repl (c :: t) =
  match Re.match_here re (c :: t) with
  | Some (_ :: _, rest) => repl ++ Re.sub re repl rest
  | _ => c :: Re.sub re repl t
  end.
Proof.
  simp sub.
  destruct (Re.inspect (Re.match_here re (c :: t))) as [[[[|m w] rest]|] e];
    simpl; rewrite e; reflexivity.
Qed.

Lemma findall_cons re c t :
  Re.findall re (c :: t) =
  match Re.match_here re (c :: t) with
  | Some (m :: w, rest) => (m :: w) :: Re.findall re rest
  | _ => Re.findall re t
  end.
Proof.
  simp findall.
  destruct (Re.inspect (Re.match_here re (c :: t))) as [[[[|m w] rest]|] e];
    simpl; rewrite e; reflexivity.
Qed.

Lemma is_sgr_cons w : is_sgr w -> exists w', w = ESC :: w'.
Proof. intros (ps & -> & _). now eexists. Qed.

Lemma strip_ansi_nil : strip_ansi [] = [].
Proof. reflexivity. Qed.

Lemma strip_ansi_escape w rest :
  is_sgr w -> strip_ansi (w ++ rest) = strip_ansi rest.
Proof.
  intros Hw. destruct (is_sgr_cons w Hw) as [w' E].
  pose proof (sgr_complete w rest Hw) as M. rewrite E in *.
  unfold strip_ansi. simpl app in *. now rewrite sub_cons, M.
Qed.

Lemma strip_ansi_char c s :
  ~ starts_escape (c :: s) -> strip_ansi (c :: s) = c :: strip_ansi s.
Proof.
  intros H. apply sgr_none in H. unfold strip_ansi. now rewrite sub_cons, H.
Qed.

Lemma findall_nil : Re.findall SGR [] = [].
Proof. reflexivity. Qed.

Lemma findall_escape w rest :
  is_sgr w -> Re.findall SGR (w ++ rest) = w :: Re.findall SGR rest.
Proof.
  intros Hw. destruct (is_sgr_cons w Hw) as [w' E].
  pose proof (sgr_complete w rest Hw) as M. rewrite E in *.
  simpl app in *. now rewrite findall_cons, M.
Qed.

Lemma findall_char c s :
  ~ starts_escape (c :: s) -> Re.findall SGR (c :: s) = Re.findall SGR s.
Proof.
  intros H. apply sgr_none in H. now rewrite findall_cons, H.
Qed.

(** Induction along the scan: the text is empty, or begins with an escape
    sequence that the scan jumps over, or with a character it passes. *)
Lemma scan_ind (P : str -> Prop) :
  P [] ->
  (forall w rest, is_sgr w -> P rest -> P (w ++ rest)) ->
  (forall c s, ~ starts_escape (c :: s) -> P s -> P (c :: s)) ->
  forall s, P s.
Proof.
  intros Hnil Hesc Hchar s.
  remember (length s) as n eqn:Hn. revert s Hn.
  induction n as [n IH] using lt_wf_ind. intros s Hn.
  destruct s as [|c s]; [exact Hnil|].
  destruct (starts_escape_dec (c :: s)) as [Hs|Hs].
  - destruct Hs as (w & rest & E & Hw). rewrite E. apply Hesc; [exact Hw|].
    destruct (is_sgr_cons w Hw) as [w' ->].
    apply (IH (length rest)); [|reflexivity].
    subst n. rewrite E. simpl. rewrite length_app. lia.
  - apply Hchar; [exact Hs|]. apply (IH (length s)); [|reflexivity].
    subst n. simpl. lia.
Qed.

End Scan.

(** ** Texts without escape sequences *)

Section EscapeFree.

Lemma escape_free_nil : escape_free [].
Proof.
  intros pre w post E Hw. destruct (is_sgr_cons w Hw) as [w' ->].
  now destruct pre.
Qed.

Lemma escape_free_cons c s : escape_free (c :: s) -> escape_free s.
Proof. intros H pre w post ->. now apply (H (c :: pre) w post). Qed.

Lemma escape_free_start s : escape_free s -> ~ starts_escape s.
Proof. intros H (w & rest & -> & Hw). now apply (H [] w rest). Qed.

Lemma escape_free_char c s :
  ~ starts_escape (c :: s) -> escape_free s -> escape_free (c :: s).
Proof.
  intros Hc Hs pre w post E Hw. destruct pre as [|c' pre].
  - apply Hc. now exists w, post.
  - injection E as -> ->. now apply (Hs pre w post).
Qed.

Lemma escape_free_app_l s t : escape_free (s ++ t) -> escape_free s.
Proof.
  intros H pre w post ->. apply (H pre w (post ++ t)).
  now rewrite <- !app_assoc.
Qed.

Lemma escape_free_app_r s t : escape_free (s ++ t) -> escape_free t.
Proof.
  intros H pre w post ->. apply (H (s ++ pre) w post).
  now rewrite <- !app_assoc.
Qed.

Lemma strip_ansi_escape_free s : escape_free s -> strip_ansi s = s.
Proof.
  induction s as [|c s IH]; intros H; [reflexivity|].
  rewrite strip_ansi_char by now apply escape_free_start.
  f_equal. apply IH. now apply escape_free_cons in H.
Qed.

Lemma findall_escape_free s : escape_free s -> Re.findall SGR s = [].
Proof.
  induction s as [|c s IH]; intros H; [reflexivity|].
  rewrite findall_char by now apply escape_free_start.
  apply IH. now apply escape_free_cons in H.
Qed.

(** The scan finds a match exactly in the texts that have an occurrence. *)
Lemma findall_nil_iff s : Re.findall SGR s = [] <-> escape_free s.
Proof.
  split; [|apply findall_escape_free].
  induction s as [|w rest Hw _|c s Hc IH] using scan_ind; intros H.
  - apply escape_free_nil.
  - now rewrite findall_escape in H.
  - rewrite findall_char in H by assumption.
    apply escape_free_char; auto.
Qed.

End EscapeFree.

(** ** [rstrip] *)

Section Rstrip.

Lemma contains_newline c : contains [LF; CR] c = true <-> is_newline c.
Proof.
  unfold contains, is_newline. simpl. rewrite !orb_true_iff, !N.eqb_eq.
  intuition discriminate.
Qed.

Lemma drop_while_split p s :
  exists t, s = t ++ drop_while p s /\ forallb p t = true.
Proof.
  induction s as [|c s (t & E & Ht)]; [now exists []|].
  simpl. destruct (p c) eqn:Hc.
  - exists (c :: t). simpl. rewrite Hc, Ht. split; [now f_equal|reflexivity].
  - now exists [].
Qed.

Lemma drop_while_head p s c r : drop_while p s = c :: r -> p c = false.
Proof.
  induction s as [|c' s IH]; [discriminate|]. simpl.
  destruct (p c') eqn:Hc; [exact IH|]. now intros [= <- <-].
Qed.

(** [rstrip] cuts a tail of newline characters, and no more than that. *)
Lemma rstrip_split line :
  exists tail,
    line = rstrip [LF; CR] line ++ tail /\ Forall is_newline tail.
Proof.
  unfold rstrip.
  destruct (drop_while_split (contains [LF; CR]) (rev line)) as (t & E & Ht).
  exists (rev t). split.
  - rewrite <- rev_app_distr, <- E. now rewrite rev_involutive.
  - apply Forall_rev. apply Forall_forall. intros c Hc.
    apply contains_newline.
    rewrite forallb_forall in Ht. now apply Ht.
Qed.

Lemma rstrip_last line p c :
  rstrip [LF; CR] line = p ++ [c] -> ~ is_newline c.
Proof.
  unfold rstrip. intros E Hc. apply contains_newline in Hc.
  apply (f_equal (@rev _)) in E. rewrite rev_involutive, rev_app_distr in E.
  simpl in E. apply drop_while_head in E. congruence.
Qed.

Lemma rstrip_escape_free line :
  escape_free line -> escape_free (rstrip [LF; CR] line).
Proof.
  intros H. destruct (rstrip_split line) as (tail & E & _).
  rewrite E in H. now apply escape_free_app_l in H.
Qed.

End Rstrip.

(** ** Occurrences of the pattern in a text *)

Section Occurrences.

(** ESC is the first character of an escape sequence and no other one. *)
Lemma is_sgr_tail w : is_sgr w -> ~ In ESC (tl w).
Proof.
  intros (ps & -> & Hps). simpl. intros [H|H]; [discriminate H|].
  apply in_app_or in H as [H|[H|[]]]; [|discriminate H].
  rewrite forallb_forall in Hps. now apply Hps in H.
Qed.

Lemma is_sgr_length w : is_sgr w -> (0 < length w)%nat.
Proof. intros Hw. destruct (is_sgr_cons w Hw) as [w' ->]. simpl. lia. Qed.

(** Occurrences do not overlap: one that meets an escape sequence at the
    start of the text is that escape sequence. *)
Lemma in_escape_escape w rest i :
  is_sgr w ->
  in_escape (w ++ rest) i <->
  (i < length w)%nat \/ ((length w <= i)%nat /\ in_escape rest (i - length w)).
Proof.
  intros Hw. split.
  - intros (pre & w' & post & E & Hw' & Hi).
    apply app_eq_app in E as [l [[E1 E2]|[E1 E2]]].
    + destruct pre as [|c pre].
      * simpl in E1. subst l. simpl in Hi.
        destruct (sgr_unique _ _ _ _ Hw' Hw E2) as [-> _]. left. lia.
      * destruct l as [|x l].
        -- rewrite app_nil_r in E1. simpl in E2. subst w rest. right.
           split; [lia|]. exists [], w', post. simpl in *. repeat split; auto; lia.
        -- exfalso. apply (is_sgr_tail w Hw).
           destruct (is_sgr_cons w' Hw') as [w'' ->].
           simpl in E2. injection E2 as <- _.
           rewrite E1. simpl. apply in_or_app. right. now left.
    + subst pre rest. rewrite length_app in Hi. right. split; [lia|].
      exists l, w', post. repeat split; auto; lia.
  - intros [Hi|[Hi (pre & w' & post & -> & Hw' & Hj)]].
    + exists [], w, rest. simpl. repeat split; auto; lia.
    + exists (w ++ pre), w', post. rewrite <- app_assoc, length_app.
      repeat split; auto; lia.
Qed.

Lemma in_escape_char c s i :
  ~ starts_escape (c :: s) ->
  in_escape (c :: s) i <-> exists j, i = S j /\ in_escape s j.
Proof.
  intros Hc. split.
  - intros (pre & w & post & E & Hw & Hi). destruct pre as [|c' pre].
    + exfalso. apply Hc. now exists w, post.
    + injection E as -> ->. simpl in Hi. destruct i as [|j]; [lia|].
      exists j. split; [reflexivity|]. exists pre, w, post.
      repeat split; auto; lia.
  - intros (j & -> & pre & w & post & -> & Hw & Hj).
    exists (c :: pre), w, post. simpl. repeat split; auto; lia.
Qed.

Lemma in_escape_nil i : ~ in_escape [] i.
Proof.
  intros (pre & w & post & E & Hw & _).
  now apply (escape_free_nil pre w post).
Qed.

Lemma escape_free_in_escape s : escape_free s <-> forall i, ~ in_escape s i.
Proof.
  split.
  - intros H i (pre & w & post & E & Hw & _). now apply (H pre w post).
  - intros H pre w post E Hw. apply (H (length pre)).
    exists pre, w, post. pose proof (is_sgr_length w Hw). repeat split; auto; lia.
Qed.

Lemma select_escape n mask (w rest : str) :
  length w = n -> select (repeat false n ++ mask) (w ++ rest) = select mask rest.
Proof.
  revert w. induction n as [|n IH]; intros [|c w] E; try discriminate.
  - reflexivity.
  - simpl. apply IH. now injection E.
Qed.

(** The stripped text keeps exactly the positions outside the occurrences. *)
Lemma strip_ansi_mask s :
  exists mask,
    length mask = length s /\
    (forall i, nth i mask true = false <-> in_escape s i) /\
    strip_ansi s = select mask s.
Proof.
  induction s as [|w rest Hw (mask & Hlen & Hmask & Hsel)
                  |c s Hc (mask & Hlen & Hmask & Hsel)] using scan_ind.
  - exists []. repeat split; try reflexivity.
    + destruct i; discriminate.
    + intros H. now apply in_escape_nil in H.
  - exists (repeat false (length w) ++ mask). split; [|split].
    + now rewrite !length_app, repeat_length, Hlen.
    + intros i. rewrite (in_escape_escape w rest i Hw), <- Hmask.
      destruct (Nat.lt_ge_cases i (length w)) as [Hi|Hi].
      * rewrite app_nth1 by now rewrite repeat_length.
        rewrite nth_repeat_lt by assumption. intuition lia.
      * rewrite app_nth2 by now rewrite repeat_length.
        rewrite repeat_length. intuition lia.
    + now rewrite strip_ansi_escape, select_escape.
  - exists (true :: mask). split; [|split].
    + simpl. now rewrite Hlen.
    + intros i. rewrite (in_escape_char c s i Hc). destruct i as [|j]; simpl.
      * split; [discriminate|]. now intros (j & [=] & _).
      * rewrite Hmask. split; [now exists j|]. now intros (j' & [= <-] & H).
    + rewrite strip_ansi_char by assumption. simpl. now rewrite Hsel.
Qed.

End Occurrences.

(** ** What stripping removes *)

Section Stripping.

Lemma subsequence_drop_app w t s : subsequence t s -> subsequence t (w ++ s).
Proof. intros H. induction w; simpl; [exact H|now apply subseq_drop]. Qed.

Lemma strip_ansi_subsequence s : subsequence (strip_ansi s) s.
Proof.
  induction s as [|w rest Hw IH|c s Hc IH] using scan_ind.
  - constructor.
  - rewrite strip_ansi_escape by assumption. now apply subsequence_drop_app.
  - rewrite strip_ansi_char by assumption. now apply subseq_keep.
Qed.

Lemma strip_ansi_length s : (len s = len (strip_ansi s) + matched_chars s)%Z.
Proof.
  unfold matched_chars, len.
  induction s as [|w rest Hw IH|c s Hc IH] using scan_ind.
  - reflexivity.
  - rewrite strip_ansi_escape, findall_escape by assumption.
    simpl fold_right. rewrite length_app. lia.
  - rewrite strip_ansi_char, findall_char by assumption. simpl length. lia.
Qed.

Lemma matched_chars_nonneg s : (0 <= matched_chars s)%Z.
Proof.
  unfold matched_chars, len.
  induction (Re.findall SGR s) as [|w ws IH]; simpl; lia.
Qed.

Lemma no_esc_escape_free t : ~ In ESC t -> escape_free t.
Proof.
  intros H pre w post -> Hw. destruct (is_sgr_cons w Hw) as [w' ->].
  apply H. apply in_or_app. right. now left.
Qed.

(** A text that stripping leaves as it is has no escape sequence. *)
Lemma strip_ansi_fixed s : strip_ansi s = s -> escape_free s.
Proof.
  induction s as [|w rest Hw _|c s Hc IH] using scan_ind; intros H.
  - apply escape_free_nil.
  - exfalso. rewrite strip_ansi_escape in H by assumption.
    pose proof (strip_ansi_length rest) as L.
    pose proof (matched_chars_nonneg rest).
    pose proof (is_sgr_length w Hw).
    rewrite H in L. unfold len in L. rewrite length_app in L. lia.
  - rewrite strip_ansi_char in H by assumption. injection H as H.
    apply escape_free_char; auto.
Qed.

(** Where every ESC begins an escape sequence, stripping leaves no ESC. *)
Lemma strip_ansi_no_esc s :
  (forall pre post, s = pre ++ ESC :: post -> starts_escape (ESC :: post)) ->
  ~ In ESC (strip_ansi s).
Proof.
  induction s as [|w rest Hw IH|c s Hc IH] using scan_ind; intros H.
  - intros [].
  - rewrite strip_ansi_escape by assumption. apply IH.
    intros pre post ->. apply (H (w ++ pre) post). now rewrite <- app_assoc.
  - rewrite strip_ansi_char by assumption. intros [E|Hin].
    + subst c. apply Hc. now apply (H [] s).
    + revert Hin. apply IH. intros pre post ->. now apply (H (c :: pre) post).
Qed.

End Stripping.

(** ** The claims on stripping *)

(** C1: [strip_ansi] removes every occurrence of the pattern ESC '['
    (digit | ';')* 'm' of the original string and keeps every other
    character in its order: the result is the string restricted to the
    positions that belong to no occurrence.  A string without an occurrence
    is returned unchanged. *)
Theorem strip_ansi_removes_occurrences (s : str) :
  (exists mask,
     length mask = length s /\
     (forall i, nth i mask true = false <-> in_escape s i) /\
     strip_ansi s = select mask s) /\
  (escape_free s -> strip_ansi s = s).
Proof.
  split; [apply strip_ansi_mask|apply strip_ansi_escape_free].
Qed.

Lemma strip_ansi_removes_occurrences_witness :
  escape_free (u "AB") /\ strip_ansi (u "AB") = u "AB".
Proof.
  assert (H : escape_free (u "AB")) by (apply findall_nil_iff; reflexivity).
  split; [exact H|].
  exact (proj2 (strip_ansi_removes_occurrences (u "AB")) H).
Defined.

(** C2 fails: stripping the stripped [nested_escape] changes it again. *)
Lemma strip_ansi_not_idempotent :
  strip_ansi nested_escape = [27; 91; 109]%N /\
  strip_ansi (strip_ansi nested_escape) = [] /\
  strip_ansi (strip_ansi nested_escape) <> strip_ansi nested_escape.
Proof. repeat split. discriminate. Qed.

(** C2, amended: stripping a stripped string returns it unchanged exactly
    when the stripped string contains no occurrence of the pattern; this is
    so for every string in which each ESC begins an escape sequence. *)
Theorem strip_ansi_idempotent_iff :
  (forall s, strip_ansi (strip_ansi s) = strip_ansi s <->
             escape_free (strip_ansi s)) /\
  (forall s,
     (forall pre post, s = pre ++ ESC :: post -> starts_escape (ESC :: post)) ->
     strip_ansi (strip_ansi s) = strip_ansi s).
Proof.
  split.
  - intros s. split; [apply strip_ansi_fixed|apply strip_ansi_escape_free].
  - intros s H. apply strip_ansi_escape_free, no_esc_escape_free.
    now apply strip_ansi_no_esc.
Qed.

Lemma strip_ansi_idempotent_iff_witness :
  let s := [65; 27; 91; 109]%N in
  (forall pre post, s = pre ++ ESC :: post -> starts_escape (ESC :: post)) /\
  strip_ansi (strip_ansi s) = strip_ansi s.
Proof.
  intros s.
  assert (H : forall pre post,
             s = pre ++ ESC :: post -> starts_escape (ESC :: post)).
  { intros [|a [|b [|c [|d pre]]]] post E; try discriminate E.
    - injection E as _ <-. exists [27; 91; 109]%N, []. split; [reflexivity|].
      now exists [].
    - now destruct pre. }
  split; [exact H|].
  exact (proj2 strip_ansi_idempotent_iff s H).
Defined.

(** ** The line record *)

Section LineRecord.

Lemma is_sgr_no_newline w x : is_sgr w -> In x w -> ~ is_newline x.
Proof.
  intros (ps & -> & Hps) Hin Hx. rewrite forallb_forall in Hps.
  destruct Hin as [<-|[<-|Hin]].
  - destruct Hx; discriminate.
  - destruct Hx; discriminate.
  - apply in_app_or in Hin as [Hin|[<-|[]]].
    + apply Hps in Hin. destruct Hx; subst x; discriminate.
    + destruct Hx; discriminate.
Qed.

Lemma newlines_escape_free tail : Forall is_newline tail -> escape_free tail.
Proof.
  intros H. apply no_esc_escape_free. intros Hin.
  rewrite Forall_forall in H. destruct (H _ Hin); discriminate.
Qed.

(** An escape sequence does not reach into the newlines that end a line. *)
Lemma starts_escape_app_newlines s tail :
  Forall is_newline tail -> starts_escape (s ++ tail) -> starts_escape s.
Proof.
  intros Ht (w & rest & E & Hw).
  apply app_eq_app in E as [l [[E1 E2]|[E1 E2]]].
  - subst s. now exists w, l.
  - destruct l as [|x l].
    + rewrite app_nil_r in E1. subst w. exists s, []. now rewrite app_nil_r.
    + exfalso. apply (is_sgr_no_newline w x Hw).
      * rewrite E1. apply in_or_app. right. now left.
      * rewrite Forall_forall in Ht. apply Ht. rewrite E2. now left.
Qed.

Lemma findall_app_newlines s tail :
  Forall is_newline tail -> Re.findall SGR (s ++ tail) = Re.findall SGR s.
Proof.
  intros Ht. induction s as [|w rest Hw IH|c s Hc IH] using scan_ind.
  - simpl. now apply findall_escape_free, newlines_escape_free.
  - rewrite <- app_assoc, (findall_escape w (rest ++ tail) Hw),
      (findall_escape w rest Hw). now rewrite IH.
  - simpl app. rewrite !findall_char; auto.
    intros H. apply Hc. now apply (starts_escape_app_newlines (c :: s) tail).
Qed.

Lemma strip_ansi_app_newlines s tail :
  Forall is_newline tail -> strip_ansi (s ++ tail) = strip_ansi s ++ tail.
Proof.
  intros Ht. induction s as [|w rest Hw IH|c s Hc IH] using scan_ind.
  - simpl. now apply strip_ansi_escape_free, newlines_escape_free.
  - rewrite <- app_assoc, (strip_ansi_escape w (rest ++ tail) Hw),
      (strip_ansi_escape w rest Hw). exact IH.
  - simpl app. rewrite !strip_ansi_char; auto.
    + simpl. now rewrite IH.
    + intros H. apply Hc. now apply (starts_escape_app_newlines (c :: s) tail).
Qed.

(** The newlines cut from a line hold no match: the count of a line record
    is the count on the whole line. *)
Lemma ansi_codes_findall line :
  ansi_codes (analyze_line line) = len (Re.findall SGR line).
Proof.
  destruct (rstrip_split line) as (tail & E & Ht).
  unfold analyze_line. simpl. rewrite E at 2.
  now rewrite findall_app_newlines.
Qed.

End LineRecord.

(** C5: a string [S] without an escape sequence is returned unchanged by the
    stripper; in its line record the visible length equals the raw length
    and the escape count is 0. *)
Theorem escape_free_line (S : str) :
  escape_free S ->
  strip_ansi S = S /\
  visual_len (analyze_line S) = raw_len (analyze_line S) /\
  ansi_codes (analyze_line S) = 0%Z /\
  len (Re.findall SGR S) = 0%Z.
Proof.
  intros H. pose proof (rstrip_escape_free S H) as Hr.
  repeat split.
  - now apply strip_ansi_escape_free.
  - unfold analyze_line. simpl. now rewrite strip_ansi_escape_free.
  - unfold analyze_line. simpl. now rewrite findall_escape_free.
  - now rewrite findall_escape_free.
Qed.

Lemma escape_free_line_witness :
  let S := u "plain [0m text" in
  escape_free S /\
  strip_ansi S = S /\
  visual_len (analyze_line S) = raw_len (analyze_line S) /\
  ansi_codes (analyze_line S) = 0%Z /\
  len (Re.findall SGR S) = 0%Z.
Proof.
  intros S.
  assert (H : escape_free S) by (apply findall_nil_iff; reflexivity).
  split; [exact H|exact (escape_free_line S H)].
Defined.

(** C9: the stripped string is a subsequence of the string; in every line
    record the visible length is at most the raw length, and the raw length
    exceeds it by the number of characters of the matched escape
    sequences. *)
Theorem strip_ansi_subsequence_lengths :
  (forall s, subsequence (strip_ansi s) s) /\
  (forall line,
     (visual_len (analyze_line line) <= raw_len (analyze_line line))%Z /\
     (raw_len (analyze_line line) - visual_len (analyze_line line) =
      matched_chars (rstrip [LF; CR] line))%Z).
Proof.
  split; [exact strip_ansi_subsequence|].
  intros line. unfold analyze_line. simpl.
  pose proof (strip_ansi_length (rstrip [LF; CR] line)).
  pose proof (matched_chars_nonneg (rstrip [LF; CR] line)).
  lia.
Qed.

(** C10: before a line is analysed, all the '\n' and '\r' characters at its
    end are removed, in any number and combination, and nothing else: the
    line is what is kept followed by a tail of such characters, what is
    kept does not end in one, and the raw length is the length without the
    tail.  A line ending in "\r\r\n" loses these three characters. *)
Theorem rstrip_newlines :
  (forall line,
     exists tail,
       line = rstrip [LF; CR] line ++ tail /\
       Forall is_newline tail /\
       (forall p c, rstrip [LF; CR] line = p ++ [c] -> ~ is_newline c) /\
       raw_len (analyze_line line) = (len line - len tail)%Z) /\
  rstrip [LF; CR] (u "ab" ++ [CR; CR; LF]) = u "ab" /\
  raw_len (analyze_line (u "ab" ++ [CR; CR; LF])) = 2%Z.
Proof.
  split; [|split; reflexivity].
  intros line. destruct (rstrip_split line) as (tail & E & Ht).
  exists tail. repeat split; auto.
  - apply rstrip_last.
  - unfold analyze_line. simpl. rewrite E at 2. unfold len.
    rewrite length_app. lia.
Qed.

Lemma rstrip_newlines_witness :
  rstrip [LF; CR] (u "a" ++ [LF] ++ u "b" ++ [LF; CR]) = u "a" ++ [LF] ++ u "b" /\
  ~ is_newline 98%N.
Proof.
  split; [reflexivity|].
  destruct (proj1 rstrip_newlines (u "a" ++ [LF] ++ u "b" ++ [LF; CR]))
    as (tail & _ & _ & H & _).
  exact (H (u "a" ++ [LF]) 98%N eq_refl).
Defined.

(** ** Texts cut into segments *)

Section Segments.

(** An escape sequence after a stretch of text without one is the first
    that the scan meets. *)
Lemma escape_free_before c t w rest :
  escape_free (c :: t) -> is_sgr w -> ~ starts_escape ((c :: t) ++ w ++ rest).
Proof.
  intros Ht Hw (w0 & r0 & E & Hw0). symmetry in E.
  apply app_eq_app in E as [l [[E1 E2]|[E1 E2]]].
  - destruct l as [|x l].
    + rewrite app_nil_r in E1. subst w0.
      apply (Ht [] (c :: t) []); [now rewrite app_nil_r|assumption].
    + apply (is_sgr_tail w0 Hw0). destruct (is_sgr_cons w Hw) as [w' ->].
      simpl in E2. injection E2 as <- _. rewrite E1. simpl.
      apply in_or_app. right. now left.
  - now apply (Ht [] w0 l).
Qed.

Lemma strip_ansi_text_escape t w rest :
  escape_free t -> is_sgr w ->
  strip_ansi (t ++ w ++ rest) = t ++ strip_ansi rest.
Proof.
  intros Ht Hw. induction t as [|c t IH].
  - simpl. now apply strip_ansi_escape.
  - simpl app.
    rewrite strip_ansi_char by (apply (escape_free_before c t w rest); assumption).
    f_equal. apply IH. now apply escape_free_cons in Ht.
Qed.

Lemma findall_text_escape t w rest :
  escape_free t -> is_sgr w ->
  Re.findall SGR (t ++ w ++ rest) = w :: Re.findall SGR rest.
Proof.
  intros Ht Hw. induction t as [|c t IH].
  - simpl. now apply findall_escape.
  - simpl app.
    rewrite findall_char by (apply (escape_free_before c t w rest); assumption).
    apply IH. now apply escape_free_cons in Ht.
Qed.

Lemma segments_scan segs : forall run,
  Forall segment_ok segs ->
  Forall escape_free (text_runs run segs) ->
  strip_ansi (run ++ concat_segments segs) = run ++ text_of segs /\
  Re.findall SGR (run ++ concat_segments segs) = escapes_of segs.
Proof.
  induction segs as [|[t|w] segs IH]; intros run Hok Hruns; simpl in *.
  - apply Forall_inv in Hruns. rewrite app_nil_r.
    split; [now apply strip_ansi_escape_free|now apply findall_escape_free].
  - rewrite !app_assoc. apply IH; [now apply Forall_inv_tail in Hok|assumption].
  - pose proof (Forall_inv Hok) as Hw. simpl in Hw.
    pose proof (Forall_inv Hruns) as Hrun.
    destruct (IH [] (Forall_inv_tail Hok) (Forall_inv_tail Hruns)) as [IH1 IH2].
    simpl in IH1, IH2.
    rewrite strip_ansi_text_escape, findall_text_escape by assumption.
    now rewrite IH1, IH2.
Qed.

End Segments.

(** C4 fails: a text segment may itself hold an escape sequence, which is
    removed and counted like the others.  Here the segments are the escape
    sequence ESC "[31m" and the text "A" ESC "[0m". *)
Lemma text_segment_with_escape :
  let segs := [Escape (27%N :: u "[31m"); Text (65%N :: 27%N :: u "[0m")] in
  Forall segment_ok segs /\
  strip_ansi (concat_segments segs) = u "A" /\
  strip_ansi (concat_segments segs) <> text_of segs /\
  len (Re.findall SGR (concat_segments segs)) = 2%Z /\
  len (Re.findall SGR (concat_segments segs)) <> len (escapes_of segs).
Proof.
  intros segs. split; [|repeat split; discriminate].
  repeat constructor. now exists (u "31").
Qed.

(** C4, amended: for a string formed by concatenating segments of which some
    are exactly the pattern and the others are text that, adjacent text
    segments taken together, contains no occurrence of the pattern,
    stripping removes exactly the pattern segments and leaves the other
    characters in their order, and the escape count is the number of
    pattern segments. *)
Theorem strip_ansi_segments (segs : list segment) :
  Forall segment_ok segs ->
  Forall escape_free (text_runs [] segs) ->
  strip_ansi (concat_segments segs) = text_of segs /\
  Re.findall SGR (concat_segments segs) = escapes_of segs /\
  ansi_codes (analyze_line (concat_segments segs)) = len (escapes_of segs).
Proof.
  intros Hok Hruns. destruct (segments_scan segs [] Hok Hruns) as [H1 H2].
  simpl in H1, H2. repeat split; auto.
  now rewrite ansi_codes_findall, H2.
Qed.

Lemma strip_ansi_segments_witness :
  let segs := [Text (27%N :: u "["); Escape (27%N :: u "[1;31m");
               Text (u "m"); Text (u "AB"); Escape (27%N :: u "[m")] in
  Forall segment_ok segs /\
  Forall escape_free (text_runs [] segs) /\
  strip_ansi (concat_segments segs) = text_of segs /\
  Re.findall SGR (concat_segments segs) = escapes_of segs /\
  ansi_codes (analyze_line (concat_segments segs)) = len (escapes_of segs).
Proof.
  intros segs.
  assert (Hok : Forall segment_ok segs).
  { repeat constructor; [now exists (u "1;31")|now exists []]. }
  assert (Hruns : Forall escape_free (text_runs [] segs)).
  { repeat constructor; apply findall_nil_iff; reflexivity. }
  split; [exact Hok|]. split; [exact Hruns|].
  exact (strip_ansi_segments segs Hok Hruns).
Defined.

(** ** Running the script *)

Section Running.

Lemma for_each_print {A} (f : A -> print_call) (body : A -> IO unit) :
  (forall x out, body x out = (out ++ [f x], inr tt)) ->
  forall xs out, for_each xs body out = (out ++ map f xs, inr tt).
Proof.
  intros Hbody xs. induction xs as [|x xs IH]; intros out; simpl.
  - unfold ret. now rewrite app_nil_r.
  - unfold bind. rewrite Hbody, IH. now rewrite <- app_assoc.
Qed.

Lemma report_widths_run ws out :
  report_widths ws out = (out ++ width_report ws, inr tt).
Proof.
  destruct ws as [|x xs]; unfold report_widths; simpl.
  - unfold ret. now rewrite app_nil_r.
  - unfold bind, lift, print. simpl.
    destruct (fold_left Z.min xs x =? fold_left Z.max xs x)%Z; simpl;
      now rewrite <- app_assoc.
Qed.

Lemma analyze_lines_run filename lines out :
  analyze_lines filename lines out = (out ++ lines_report filename lines, inr tt).
Proof.
  unfold analyze_lines, lines_report, bind at 1, print.
  unfold bind.
  rewrite (for_each_print line_report_of) by now intros [i line] out'.
  rewrite report_widths_run. now rewrite <- !app_assoc.
Qed.

Lemma analyze_frame_run fs filename out :
  analyze_frame fs filename out =
  match fs filename with
  | inl e => (out, inl e)
  | inr content => (out ++ lines_report filename (readlines content), inr tt)
  end.
Proof.
  unfold analyze_frame, open_readlines, bind, lift, ret.
  destruct (fs filename); [reflexivity|apply analyze_lines_run].
Qed.

Lemma process_files_run fs files : forall out,
  process_files fs files out = (out ++ flat_map (file_output fs) files, inr tt).
Proof.
  unfold process_files.
  induction files as [|f files IH]; intros out; simpl.
  - unfold ret. now rewrite app_nil_r.
  - unfold bind, try_except at 1. rewrite analyze_frame_run. unfold file_output.
    destruct (fs f) as [e|content]; unfold print; rewrite IH;
      now rewrite <- app_assoc.
Qed.

(** The appended widths are those of the lines that are not blank. *)
Lemma visual_widths_filter lines :
  visual_widths lines =
  map visual_len
    (filter (fun r => truthy (stripped r)) (map analyze_line lines)).
Proof.
  unfold visual_widths.
  enough (H : forall acc,
             fold_left visual_widths_step lines acc =
             acc ++ map visual_len
               (filter (fun r => truthy (stripped r)) (map analyze_line lines)))
    by apply (H []).
  induction lines as [|line lines IH]; intros acc; simpl.
  - now rewrite app_nil_r.
  - rewrite IH. unfold visual_widths_step.
    destruct (truthy (strip_ansi (rstrip [LF; CR] line))); simpl;
      [now rewrite <- app_assoc|reflexivity].
Qed.

Lemma fold_min_spec xs : forall x,
  is_minimum (fold_left Z.min xs x) (x :: xs).
Proof.
  induction xs as [|y xs IH]; intros x; simpl.
  - split; [now left|]. intros z [<-|[]]. lia.
  - destruct (IH (Z.min x y)) as [Hin Hle]. split.
    + destruct Hin as [E|Hin]; [|now right; right].
      rewrite <- E. destruct (Z.min_spec x y) as [[_ ->]|[_ ->]]; simpl; auto.
    + intros z Hz. pose proof (Hle (Z.min x y) (or_introl eq_refl)).
      destruct Hz as [<-|[<-|Hz]]; [lia|lia|]. apply Hle. now right.
Qed.

Lemma fold_max_spec xs : forall x,
  is_maximum (fold_left Z.max xs x) (x :: xs).
Proof.
  induction xs as [|y xs IH]; intros x; simpl.
  - split; [now left|]. intros z [<-|[]]. lia.
  - destruct (IH (Z.max x y)) as [Hin Hle]. split.
    + destruct Hin as [E|Hin]; [|now right; right].
      rewrite <- E. destruct (Z.max_spec x y) as [[_ ->]|[_ ->]]; simpl; auto.
    + intros z Hz. pose proof (Hle (Z.max x y) (or_introl eq_refl)).
      destruct Hz as [<-|[<-|Hz]]; [lia|lia|]. apply Hle. now right.
Qed.

Lemma visual_len_stripped line :
  visual_len (analyze_line line) = len (stripped (analyze_line line)).
Proof. reflexivity. Qed.

Lemma line_reports_no_width xs :
  filter is_width_report (map line_report_of xs) = [].
Proof. induction xs as [|[i line] xs IH]; [reflexivity|exact IH]. Qed.

End Running.

(** ** The claims on the reports *)

(** C3 fails on the raw length of line 1: without its newline the line has
    5 + 2 + 4 = 11 characters, not 13. *)
Lemma line_1_raw_length :
  raw_len (analyze_line line_1) = 11%Z /\
  raw_len (analyze_line line_1) <> 13%Z.
Proof. split; [reflexivity|discriminate]. Qed.

(** C3, amended: for the file of the two lines ESC "[31mAB" ESC "[0m\n" and
    "CD\n", line 1 has raw length 11, visible text "AB", visible length 2
    and escape count 2; line 2 has raw length 2, visible length 2 and
    escape count 0; the verdict is "consistent". *)
Theorem two_line_file_report :
  readlines (line_1 ++ line_2) = [line_1; line_2] /\
  analyze_line line_1 =
    {| raw_len := 11; stripped := u "AB"; visual_len := 2; ansi_codes := 2 |} /\
  analyze_line line_2 =
    {| raw_len := 2; stripped := u "CD"; visual_len := 2; ansi_codes := 0 |} /\
  forall filename,
    output_of (analyze_lines filename [line_1; line_2]) =
    [ Header filename;
      LineReport 1 11 2 2 (u "AB");
      LineReport 2 2 2 0 (u "CD");
      WidthRange 2 2;
      ConsistentWidth ].
Proof. repeat split. Qed.

(** C6: the width samples are the visible lengths of the lines whose
    stripped text is not empty, in order; the visible length of a line is
    among them exactly when its stripped text is not empty.  When every
    line is empty after stripping there is no sample, and the file's report
    has no width range, warning or confirmation. *)
Theorem width_samples (lines : list str) :
  visual_widths lines =
    map visual_len
      (filter (fun r => truthy (stripped r)) (map analyze_line lines)) /\
  (forall line, In line lines ->
     (In (visual_len (analyze_line line)) (visual_widths lines) <->
      stripped (analyze_line line) <> [])) /\
  ((forall line, In line lines -> stripped (analyze_line line) = []) ->
   visual_widths lines = [] /\
   forall filename,
     filter is_width_report (output_of (analyze_lines filename lines)) = []).
Proof.
  pose proof (visual_widths_filter lines) as W. split; [exact W|]. split.
  - intros line Hline. rewrite W. split.
    + intros Hin Hblank. apply in_map_iff in Hin as (r & Hlen & Hr).
      apply filter_In in Hr as [Hr Htruthy].
      apply in_map_iff in Hr as (line' & <- & _).
      rewrite !visual_len_stripped, Hblank in Hlen.
      destruct (stripped (analyze_line line')); discriminate.
    + intros Hne. apply in_map. apply filter_In. split.
      * now apply in_map.
      * destruct (stripped (analyze_line line)); [contradiction|reflexivity].
  - intros Hblank.
    assert (E : visual_widths lines = []).
    { rewrite W. clear W. induction lines as [|l lines IH]; [reflexivity|].
      cbn [map filter]. rewrite (Hblank l) by now left. cbn [truthy].
      apply IH. intros line H. apply Hblank. now right. }
    split; [exact E|]. intros filename. unfold output_of.
    rewrite analyze_lines_run. simpl. unfold lines_report.
    rewrite E. simpl. rewrite app_nil_r. apply line_reports_no_width.
Qed.

Lemma width_samples_witness :
  let lines := [27%N :: u "[0m" ++ [LF]; [LF]] in
  (forall line, In line lines -> stripped (analyze_line line) = []) /\
  visual_widths lines = [] /\
  forall filename,
    filter is_width_report (output_of (analyze_lines filename lines)) = [].
Proof.
  intros lines.
  assert (H : forall line, In line lines -> stripped (analyze_line line) = []).
  { intros line [<-|[<-|[]]]; reflexivity. }
  split; [exact H|].
  exact (proj2 (proj2 (width_samples lines)) H).
Defined.

(** C7: for a sample set that is not empty the aggregator reports its
    minimum and its maximum, then the warning with the difference maximum
    minus minimum when the two differ and the confirmation when they are
    equal.  One sample alone is consistent; the samples 5, 7, 5 give
    minimum 5, maximum 7, difference 2 and the warning. *)
Theorem report_widths_verdict :
  (forall ws, ws <> [] ->
     exists mn mx,
       is_minimum mn ws /\ is_maximum mx ws /\
       (mn <> mx ->
        forall out, report_widths ws out =
          (out ++ [WidthRange mn mx; InconsistentWidth (mx - mn)], inr tt)) /\
       (mn = mx ->
        forall out, report_widths ws out =
          (out ++ [WidthRange mn mx; ConsistentWidth], inr tt))) /\
  (forall w, output_of (report_widths [w]) = [WidthRange w w; ConsistentWidth]) /\
  output_of (report_widths [5; 7; 5]%Z) =
    [WidthRange 5 7; InconsistentWidth 2].
Proof.
  split; [|split].
  - intros [|x xs] Hne; [contradiction|].
    exists (fold_left Z.min xs x), (fold_left Z.max xs x).
    split; [apply fold_min_spec|]. split; [apply fold_max_spec|].
    split; intros H out; rewrite report_widths_run; simpl.
    + apply Z.eqb_neq in H. now rewrite H.
    + apply Z.eqb_eq in H. now rewrite H.
  - intros w. unfold output_of. rewrite report_widths_run. simpl.
    now rewrite Z.eqb_refl.
  - reflexivity.
Qed.

Lemma report_widths_verdict_witness :
  [5; 7; 5]%Z <> [] /\
  exists mn mx,
    is_minimum mn [5; 7; 5]%Z /\ is_maximum mx [5; 7; 5]%Z /\
    (mn <> mx ->
     forall out, report_widths [5; 7; 5]%Z out =
       (out ++ [WidthRange mn mx; InconsistentWidth (mx - mn)], inr tt)) /\
    (mn = mx ->
     forall out, report_widths [5; 7; 5]%Z out =
       (out ++ [WidthRange mn mx; ConsistentWidth], inr tt)).
Proof.
  assert (H : [5; 7; 5]%Z <> []) by discriminate.
  split; [exact H|].
  exact (proj1 report_widths_verdict [5; 7; 5]%Z H).
Defined.


(** ** Further properties of the stripper *)

Section MoreStripping.

Lemma is_sgr_chars w : is_sgr w -> In 27%N w /\ In 91%N w /\ In 109%N w.
Proof.
  intros (ps & -> & _). repeat split.
  - now left.
  - right. now left.
  - right. right. apply in_or_app. right. now left.
Qed.

Lemma is_sgr_alphabet w : is_sgr w -> forallb sgr_alphabet w = true.
Proof.
  intros (ps & -> & Hps). simpl. rewrite forallb_app. simpl.
  rewrite andb_true_r. apply forallb_forall. intros c Hc.
  rewrite forallb_forall in Hps. unfold sgr_alphabet.
  rewrite (Hps c Hc). now rewrite orb_true_r.
Qed.

Lemma is_sgr_min_length w : is_sgr w -> (3 <= length w)%nat.
Proof. intros (ps & -> & _). simpl. rewrite length_app. simpl. lia. Qed.

Lemma is_sgr_one_esc w : is_sgr w -> count_occ N.eq_dec w ESC = 1%nat.
Proof.
  intros Hw. pose proof (is_sgr_tail w Hw) as Ht.
  destruct (is_sgr_cons w Hw) as [w' ->]. simpl in Ht.
  apply (count_occ_not_In N.eq_dec) in Ht.
  rewrite count_occ_cons_eq by reflexivity. now rewrite Ht.
Qed.

Lemma filter_none {A} (p : A -> bool) (l : list A) :
  forallb p l = true -> filter (fun x => negb (p x)) l = [].
Proof.
  induction l as [|x l IH]; [reflexivity|]. simpl.
  intros H. apply andb_prop in H as [Hx Hl]. rewrite Hx. simpl. now apply IH.
Qed.

(** An escape sequence does not reach over an ESC that follows the text. *)
Lemma starts_escape_before_esc c s t :
  starts_escape ((c :: s) ++ ESC :: t) -> starts_escape (c :: s).
Proof.
  intros (w & rest & E & Hw).
  apply app_eq_app in E as [l [[E1 E2]|[E1 E2]]].
  - rewrite E1. now exists w, l.
  - destruct l as [|x l].
    + rewrite app_nil_r in E1. subst w. exists (c :: s), [].
      now rewrite app_nil_r.
    + exfalso. apply (is_sgr_tail w Hw). injection E2 as <- _.
      rewrite E1. simpl. apply in_or_app. right. now left.
Qed.

Lemma strip_times_escape_free n s : escape_free s -> strip_times n s = s.
Proof.
  intros H. induction n as [|n IH]; [reflexivity|].
  simpl. now rewrite (strip_ansi_escape_free s H).
Qed.

Lemma strip_ansi_shorter s :
  ~ escape_free s -> (length (strip_ansi s) < length s)%nat.
Proof.
  intros H. pose proof (strip_ansi_length s) as L.
  assert (Hm : (0 < matched_chars s)%Z).
  { unfold matched_chars. destruct (Re.findall SGR s) as [|w ws] eqn:E.
    - exfalso. apply H. now apply findall_nil_iff.
    - assert (Hw : is_sgr w).
      { revert E. clear. induction s as [|w' rest Hw' _|c s Hc IH] using scan_ind.
        - discriminate.
        - rewrite findall_escape by assumption. now intros [= <- _].
        - rewrite findall_char by assumption. exact IH. }
      simpl. fold (matched_chars s).
      pose proof (is_sgr_length w Hw). unfold len.
      assert (0 <= fold_right (fun (w0 : list N) (n : Z) => Z.of_nat (length w0) + n) 0 ws)%Z.
      { clear. induction ws; simpl; lia. }
      unfold len in *. lia. }
  unfold len in L. lia.
Qed.

Lemma escape_free_dec s : {escape_free s} + {~ escape_free s}.
Proof.
  destruct (Re.findall SGR s) as [|w ws] eqn:E.
  - left. now apply findall_nil_iff.
  - right. intros H. apply findall_nil_iff in H. congruence.
Qed.

Lemma strip_times_bound n : forall s,
  (length s <= n)%nat -> escape_free (strip_times n s).
Proof.
  induction n as [|n IH]; intros s Hn.
  - destruct s; [apply escape_free_nil|simpl in Hn; lia].
  - destruct (escape_free_dec s) as [H|H].
    + now rewrite strip_times_escape_free.
    + simpl. apply IH. pose proof (strip_ansi_shorter s H). lia.
Qed.

End MoreStripping.

(** X1: a string that lacks ESC, or lacks '[', or lacks 'm' has no escape
    sequence of the pattern: it is returned unchanged and the scan counts
    nothing.  Sequences with another final character, such as ESC "[2J",
    stay in the text. *)
Theorem strip_ansi_plain (s : str) :
  ~ In 27%N s \/ ~ In 91%N s \/ ~ In 109%N s ->
  strip_ansi s = s /\ Re.findall SGR s = [] /\
  ansi_codes (analyze_line s) = 0%Z.
Proof.
  intros H.
  assert (Hfree : escape_free s).
  { intros pre w post -> Hw. destruct (is_sgr_chars w Hw) as (H1 & H2 & H3).
    destruct H as [H|[H|H]]; apply H; apply in_or_app; right;
      apply in_or_app; now left. }
  repeat split.
  - now apply strip_ansi_escape_free.
  - now apply findall_escape_free.
  - rewrite ansi_codes_findall. now rewrite findall_escape_free.
Qed.

Lemma strip_ansi_plain_witness :
  let s := 27%N :: u "[2J" ++ 27%N :: u "[1;1H" in
  (~ In 27%N s \/ ~ In 91%N s \/ ~ In 109%N s) /\
  strip_ansi s = s /\ Re.findall SGR s = [] /\
  ansi_codes (analyze_line s) = 0%Z.
Proof.
  intros s.
  assert (H : ~ In 27%N s \/ ~ In 91%N s \/ ~ In 109%N s).
  { right. right. simpl. intros H.
    repeat (destruct H as [H|H]; [discriminate H|]). exact H. }
  split; [exact H|exact (strip_ansi_plain s H)].
Defined.

(** X2: stripping never removes a character other than ESC, '[', a digit,
    ';' or 'm': the characters outside this alphabet are the same, in the
    same order, before and after. *)
Theorem strip_ansi_keeps_other_chars (s : str) :
  filter (fun c => negb (sgr_alphabet c)) (strip_ansi s) =
  filter (fun c => negb (sgr_alphabet c)) s.
Proof.
  induction s as [|w rest Hw IH|c s Hc IH] using scan_ind.
  - reflexivity.
  - rewrite strip_ansi_escape by assumption. rewrite filter_app.
    rewrite (filter_none sgr_alphabet w) by now apply is_sgr_alphabet.
    exact IH.
  - rewrite strip_ansi_char by assumption. simpl. now rewrite IH.
Qed.

(** X3: every match holds one ESC and at least three characters: the number
    of ESC characters of a string is the number left after stripping plus
    the escape count, and the string is longer than its stripped text by at
    least three times the escape count. *)
Theorem escape_count_bounds (s : str) :
  count_occ N.eq_dec s ESC =
    (count_occ N.eq_dec (strip_ansi s) ESC + length (Re.findall SGR s))%nat /\
  (length (strip_ansi s) + 3 * length (Re.findall SGR s) <= length s)%nat.
Proof.
  induction s as [|w rest Hw [IH1 IH2]|c s Hc [IH1 IH2]] using scan_ind.
  - split; reflexivity.
  - rewrite strip_ansi_escape, findall_escape by assumption.
    rewrite count_occ_app, length_app, (is_sgr_one_esc w Hw), IH1.
    pose proof (is_sgr_min_length w Hw). simpl length. lia.
  - rewrite strip_ansi_char, findall_char by assumption.
    simpl length. split; [|lia].
    destruct (N.eq_dec c ESC) as [E|E].
    + rewrite !count_occ_cons_eq by assumption. lia.
    + rewrite !count_occ_cons_neq by assumption. exact IH1.
Qed.

(** X4: stripping and counting distribute over a concatenation whose
    second part starts with ESC: no match of the first part reaches into the
    second one. *)
Theorem strip_ansi_app_esc (s t : str) :
  strip_ansi (s ++ ESC :: t) = strip_ansi s ++ strip_ansi (ESC :: t) /\
  Re.findall SGR (s ++ ESC :: t) =
    Re.findall SGR s ++ Re.findall SGR (ESC :: t).
Proof.
  induction s as [|w rest Hw [IH1 IH2]|c s Hc [IH1 IH2]] using scan_ind.
  - split; reflexivity.
  - rewrite <- app_assoc.
    rewrite (strip_ansi_escape w (rest ++ ESC :: t) Hw),
      (strip_ansi_escape w rest Hw),
      (findall_escape w (rest ++ ESC :: t) Hw), (findall_escape w rest Hw).
    rewrite IH1, IH2. split; reflexivity.
  - assert (H : ~ starts_escape (c :: s ++ ESC :: t)).
    { intros H. apply Hc. now apply (starts_escape_before_esc c s t). }
    simpl app.
    rewrite (strip_ansi_char c (s ++ ESC :: t) H), (strip_ansi_char c s Hc),
      (findall_char c (s ++ ESC :: t) H), (findall_char c s Hc).
    rewrite IH1, IH2. split; reflexivity.
Qed.

(** X5: stripping again and again comes to rest: after as many passes as
    the string has characters the text has no escape sequence, and further
    passes leave it as it is. *)
Theorem strip_times_settles (s : str) :
  escape_free (strip_times (length s) s) /\
  strip_ansi (strip_times (length s) s) = strip_times (length s) s /\
  forall n, (length s <= n)%nat -> strip_times n s = strip_times (length s) s.
Proof.
  pose proof (strip_times_bound (length s) s (le_n _)) as H.
  split; [exact H|]. split; [now apply strip_ansi_escape_free|].
  intros n Hn. replace n with (length s + (n - length s))%nat by lia.
  generalize (n - length s)%nat as k. clear Hn. intros k.
  revert H. generalize (length s) as m. intros m. revert s.
  induction m as [|m IH]; intros s H; simpl in *.
  - now apply strip_times_escape_free.
  - now apply IH.
Qed.

(** ** Further properties of the line records and the width samples *)

Section MoreLines.

Lemma drop_while_app_all p (t r : str) :
  forallb p t = true -> drop_while p (t ++ r) = drop_while p r.
Proof.
  induction t as [|c t IH]; [reflexivity|]. simpl.
  intros H. apply andb_prop in H as [Hc Ht]. rewrite Hc. now apply IH.
Qed.

Lemma rstrip_app_newlines s tail :
  Forall is_newline tail -> rstrip [LF; CR] (s ++ tail) = rstrip [LF; CR] s.
Proof.
  intros H. unfold rstrip. rewrite rev_app_distr.
  rewrite drop_while_app_all; [reflexivity|].
  apply forallb_forall. intros c Hc. apply contains_newline.
  rewrite Forall_forall in H. apply H. now apply in_rev.
Qed.

Lemma rstrip_no_newline s :
  ~ In LF s -> ~ In CR s -> rstrip [LF; CR] s = s.
Proof.
  intros H1 H2. unfold rstrip.
  destruct (rev s) as [|c r] eqn:E.
  - simpl. rewrite <- (rev_involutive s), E. reflexivity.
  - cbn [drop_while]. destruct (contains [LF; CR] c) eqn:Hc.
    + exfalso. apply contains_newline in Hc.
      assert (Hin : In c s) by (apply in_rev; rewrite E; now left).
      destruct Hc; subst c; auto.
    + rewrite <- E. apply rev_involutive.
Qed.

Lemma visual_widths_positive lines :
  Forall (fun w => (0 < w)%Z) (visual_widths lines).
Proof.
  rewrite visual_widths_filter. apply Forall_forall. intros w Hw.
  apply in_map_iff in Hw as (r & <- & Hr).
  apply filter_In in Hr as [Hr Ht].
  apply in_map_iff in Hr as (line & <- & _).
  rewrite visual_len_stripped.
  destruct (stripped (analyze_line line)); [discriminate Ht|].
  unfold len. simpl. lia.
Qed.

Lemma width_report_filter ws :
  filter is_width_report (width_report ws) = width_report ws.
Proof.
  destruct ws as [|x xs]; [reflexivity|]. simpl.
  now destruct (fold_left Z.min xs x =? fold_left Z.max xs x)%Z.
Qed.

(** The width part of a file's report. *)
Lemma analyze_lines_width_part filename lines :
  filter is_width_report (output_of (analyze_lines filename lines)) =
  width_report (visual_widths lines).
Proof.
  unfold output_of. rewrite analyze_lines_run. simpl. unfold lines_report.
  rewrite filter_app, line_reports_no_width. simpl. apply width_report_filter.
Qed.

Lemma is_minimum_unique m m' xs : is_minimum m xs -> is_minimum m' xs -> m = m'.
Proof.
  intros [H1 H2] [H1' H2']. apply H2 in H1'. apply H2' in H1. lia.
Qed.

Lemma is_maximum_unique m m' xs : is_maximum m xs -> is_maximum m' xs -> m = m'.
Proof.
  intros [H1 H2] [H1' H2']. apply H2 in H1'. apply H2' in H1. lia.
Qed.

End MoreLines.

(** X6: a line record does not depend on how the line ends: '\n' and '\r'
    characters added at the end of a line, in any number, change nothing,
    and neither does cutting them first. *)
Theorem analyze_line_terminator (line tail : str) :
  Forall is_newline tail ->
  analyze_line (line ++ tail) = analyze_line line /\
  analyze_line (rstrip [LF; CR] line) = analyze_line line /\
  rstrip [LF; CR] (rstrip [LF; CR] line) = rstrip [LF; CR] line.
Proof.
  intros H.
  assert (Hidem : rstrip [LF; CR] (rstrip [LF; CR] line) = rstrip [LF; CR] line).
  { destruct (rstrip_split line) as (tail0 & E & Ht0).
    rewrite E at 2. now rewrite rstrip_app_newlines. }
  unfold analyze_line. rewrite (rstrip_app_newlines line tail H), Hidem.
  repeat split.
Qed.

Lemma analyze_line_terminator_witness :
  Forall is_newline [CR; LF] /\
  analyze_line (u "AB" ++ [CR; LF]) = analyze_line (u "AB").
Proof.
  assert (H : Forall is_newline [CR; LF]).
  { apply Forall_cons; [now right|]. apply Forall_cons; [now left|].
    apply Forall_nil. }
  split; [exact H|].
  exact (proj1 (analyze_line_terminator (u "AB") [CR; LF] H)).
Defined.

(** X7: the width samples of a file are those of its first part followed by
    those of the rest; every sample is positive, there is at most one for
    each line, and a line that is empty after stripping adds none wherever
    it stands. *)
Theorem visual_widths_compose :
  (forall a b, visual_widths (a ++ b) = visual_widths a ++ visual_widths b) /\
  (forall lines, Forall (fun w => (0 < w)%Z) (visual_widths lines)) /\
  (forall lines, (length (visual_widths lines) <= length lines)%nat) /\
  (forall a line b,
     stripped (analyze_line line) = [] ->
     visual_widths (a ++ line :: b) = visual_widths (a ++ b)).
Proof.
  assert (Happ : forall a b,
             visual_widths (a ++ b) = visual_widths a ++ visual_widths b).
  { intros a b. rewrite !visual_widths_filter.
    now rewrite map_app, filter_app, map_app. }
  split; [exact Happ|]. split; [exact visual_widths_positive|]. split.
  - intros lines. rewrite visual_widths_filter, length_map.
    etransitivity; [apply filter_length_le|]. now rewrite length_map.
  - intros a line b H. rewrite !Happ. f_equal.
    change (line :: b) with ([line] ++ b). rewrite Happ.
    rewrite (visual_widths_filter [line]). cbn [map filter].
    now rewrite H.
Qed.

Lemma visual_widths_compose_witness :
  stripped (analyze_line (27%N :: u "[0m" ++ [LF])) = [] /\
  visual_widths ([u "AB"] ++ (27%N :: u "[0m" ++ [LF]) :: [u "CDE"]) =
  visual_widths ([u "AB"] ++ [u "CDE"]).
Proof.
  assert (H : stripped (analyze_line (27%N :: u "[0m" ++ [LF])) = [])
    by reflexivity.
  split; [exact H|].
  exact (proj2 (proj2 (proj2 visual_widths_compose)) [u "AB"] _ [u "CDE"] H).
Defined.

(** X8: the confirmation is printed exactly for samples that are all equal:
    samples that all equal [W] give the range [W] - [W] and the
    confirmation; and where the confirmation is printed, any two samples are
    equal. *)
Theorem consistent_iff_all_equal :
  (forall ws W,
     ws <> [] -> (forall w, In w ws -> w = W) ->
     output_of (report_widths ws) = [WidthRange W W; ConsistentWidth]) /\
  (forall ws,
     In ConsistentWidth (output_of (report_widths ws)) ->
     forall a b, In a ws -> In b ws -> a = b).
Proof.
  split.
  - intros [|x xs] W Hne Hall; [contradiction|].
    unfold output_of. rewrite report_widths_run. simpl.
    destruct (fold_min_spec xs x) as [Hmin _].
    destruct (fold_max_spec xs x) as [Hmax _].
    rewrite (Hall _ Hmin), (Hall _ Hmax). now rewrite Z.eqb_refl.
  - intros [|x xs] Hin a b Ha Hb; [destruct Ha|].
    unfold output_of in Hin. rewrite report_widths_run in Hin. simpl in Hin.
    destruct (fold_min_spec xs x) as [_ Hmin].
    destruct (fold_max_spec xs x) as [_ Hmax].
    destruct (Z.eqb_spec (fold_left Z.min xs x) (fold_left Z.max xs x)) as [E|E].
    + pose proof (Hmin a Ha). pose proof (Hmax a Ha).
      pose proof (Hmin b Hb). pose proof (Hmax b Hb). lia.
    + destruct Hin as [Hin|[Hin|[]]]; discriminate Hin.
Qed.

Lemma consistent_iff_all_equal_witness :
  [4; 4; 4]%Z <> [] /\ (forall w, In w [4; 4; 4]%Z -> w = 4%Z) /\
  output_of (report_widths [4; 4; 4]%Z) = [WidthRange 4 4; ConsistentWidth].
Proof.
  assert (H1 : [4; 4; 4]%Z <> []) by discriminate.
  assert (H2 : forall w, In w [4; 4; 4]%Z -> w = 4%Z).
  { intros w [H|[H|[H|[]]]]; now symmetry. }
  split; [exact H1|]. split; [exact H2|].
  exact (proj1 consistent_iff_all_equal [4; 4; 4]%Z 4%Z H1 H2).
Defined.

(** ** Further properties of the file report *)

Section MoreReport.

Lemma filter_permutation {A} (p : A -> bool) (l l' : list A) :
  Permutation l l' -> Permutation (filter p l) (filter p l').
Proof.
  induction 1 as [|x l l' _ IH|x y l|l l' l'' _ IH1 _ IH2]; simpl.
  - constructor.
  - destruct (p x); [now constructor|exact IH].
  - destruct (p x), (p y); try reflexivity. constructor.
  - now transitivity (filter p l').
Qed.

Lemma visual_widths_permutation lines lines' :
  Permutation lines lines' ->
  Permutation (visual_widths lines) (visual_widths lines').
Proof.
  intros H. rewrite !visual_widths_filter.
  apply Permutation_map, filter_permutation. now apply Permutation_map.
Qed.

Lemma is_minimum_permutation m ws ws' :
  Permutation ws ws' -> is_minimum m ws -> is_minimum m ws'.
Proof.
  intros P [H1 H2]. split; [now apply (Permutation_in _ P)|].
  intros x Hx. apply H2. apply (Permutation_in _ (Permutation_sym P) Hx).
Qed.

Lemma is_maximum_permutation m ws ws' :
  Permutation ws ws' -> is_maximum m ws -> is_maximum m ws'.
Proof.
  intros P [H1 H2]. split; [now apply (Permutation_in _ P)|].
  intros x Hx. apply H2. apply (Permutation_in _ (Permutation_sym P) Hx).
Qed.

Lemma width_report_permutation ws ws' :
  Permutation ws ws' -> width_report ws = width_report ws'.
Proof.
  intros P. destruct ws as [|x xs], ws' as [|y ys].
  - reflexivity.
  - now apply Permutation_nil_cons in P.
  - symmetry in P. now apply Permutation_nil_cons in P.
  - simpl.
    rewrite (is_minimum_unique _ _ _
               (is_minimum_permutation _ _ _ P (fold_min_spec xs x))
               (fold_min_spec ys y)).
    rewrite (is_maximum_unique _ _ _
               (is_maximum_permutation _ _ _ P (fold_max_spec xs x))
               (fold_max_spec ys y)).
    reflexivity.
Qed.

Lemma enumerate_length {A} (xs : list A) : forall start,
  length (enumerate xs start) = length xs.
Proof. induction xs as [|x xs IH]; intros start; simpl; [|rewrite IH]; reflexivity. Qed.

Lemma enumerate_nth {A} (xs : list A) : forall start k x,
  nth_error xs k = Some x ->
  nth_error (enumerate xs start) k = Some ((start + Z.of_nat k)%Z, x).
Proof.
  induction xs as [|y xs IH]; intros start [|k] x H; try discriminate.
  - injection H as ->. simpl. now rewrite Z.add_0_r.
  - simpl in *. rewrite (IH _ _ _ H). do 2 f_equal. lia.
Qed.

Lemma line_reports_all xs : forallb is_line_report (map line_report_of xs) = true.
Proof. induction xs as [|[i line] xs IH]; [reflexivity|exact IH]. Qed.

End MoreReport.

(** X9: the width part of a file's report does not depend on the order of
    the lines: a file with the same lines in another order gets the same
    range and the same verdict. *)
Theorem width_report_order (filename : str) (lines lines' : list str) :
  Permutation lines lines' ->
  filter is_width_report (output_of (analyze_lines filename lines)) =
  filter is_width_report (output_of (analyze_lines filename lines')).
Proof.
  intros P. rewrite !analyze_lines_width_part.
  now apply width_report_permutation, visual_widths_permutation.
Qed.

Lemma width_report_order_witness :
  Permutation [u "AB"; u "CDEF"; u "G"] [u "G"; u "AB"; u "CDEF"] /\
  filter is_width_report
    (output_of (analyze_lines (u "f") [u "AB"; u "CDEF"; u "G"])) =
  filter is_width_report
    (output_of (analyze_lines (u "f") [u "G"; u "AB"; u "CDEF"])).
Proof.
  assert (P : Permutation [u "AB"; u "CDEF"; u "G"] [u "G"; u "AB"; u "CDEF"]).
  { apply Permutation_sym.
    apply (Permutation_cons_app [u "AB"; u "CDEF"] [] (u "G")).
    rewrite app_nil_r. apply Permutation_refl. }
  split; [exact P|].
  exact (width_report_order (u "f") _ _ P).
Defined.

(** X10: the numbers of the width report are sound: a printed range has
    0 < minimum <= maximum, and a printed difference is positive. *)
Theorem width_report_sound (filename : str) (lines : list str) :
  (forall mn mx,
     In (WidthRange mn mx) (output_of (analyze_lines filename lines)) ->
     (0 < mn <= mx)%Z) /\
  (forall d,
     In (InconsistentWidth d) (output_of (analyze_lines filename lines)) ->
     (0 < d)%Z).
Proof.
  assert (Hpart : forall p, is_width_report p = true ->
            In p (output_of (analyze_lines filename lines)) ->
            In p (width_report (visual_widths lines))).
  { intros p Hp Hin. rewrite <- (analyze_lines_width_part filename).
    apply filter_In. now split. }
  pose proof (visual_widths_positive lines) as Hpos.
  destruct (visual_widths lines) as [|x xs].
  - split; intros; apply Hpart in H; [destruct H|reflexivity|destruct H|reflexivity].
  - destruct (fold_min_spec xs x) as [Hmin Hle].
    destruct (fold_max_spec xs x) as [Hmax Hge].
    rewrite Forall_forall in Hpos.
    pose proof (Hpos _ Hmin). pose proof (Hle x (or_introl eq_refl)).
    pose proof (Hge x (or_introl eq_refl)).
    split.
    + intros mn mx Hin. apply Hpart in Hin; [|reflexivity]. simpl in Hin.
      destruct Hin as [Hin|[Hin|[]]].
      * injection Hin as <- <-. lia.
      * destruct (_ =? _)%Z in Hin; discriminate Hin.
    + intros d Hin. apply Hpart in Hin; [|reflexivity]. simpl in Hin.
      destruct Hin as [Hin|[Hin|[]]]; [discriminate Hin|].
      destruct (Z.eqb_spec (fold_left Z.min xs x) (fold_left Z.max xs x));
        [discriminate Hin|].
      injection Hin as <-. lia.
Qed.

Lemma width_report_sound_witness :
  In (InconsistentWidth 2)
    (output_of (analyze_lines (u "f") [u "AB"; u "CDEF"])) /\ (0 < 2)%Z.
Proof.
  assert (H : In (InconsistentWidth 2)
                (output_of (analyze_lines (u "f") [u "AB"; u "CDEF"]))).
  { vm_compute. right. right. right. right. now left. }
  split; [exact H|].
  exact (proj2 (width_report_sound (u "f") [u "AB"; u "CDEF"]) 2%Z H).
Defined.

(** X11: the report on a file's lines is the header, then one report line
    for every line of the file, blank ones too, numbered from 1 in the order
    of the file, then the width part: nothing when there is no sample, two
    calls otherwise. *)
Theorem report_structure (filename : str) (lines : list str) :
  exists reports widths,
    output_of (analyze_lines filename lines) =
      Header filename :: reports ++ widths /\
    length reports = length lines /\
    (forall k line,
       nth_error lines k = Some line ->
       nth_error reports k = Some (line_report_of ((Z.of_nat k + 1)%Z, line))) /\
    forallb is_line_report reports = true /\
    forallb is_width_report widths = true /\
    length widths = if truthy (visual_widths lines) then 2%nat else 0%nat.
Proof.
  exists (map line_report_of (enumerate lines 1)),
         (width_report (visual_widths lines)).
  split; [|split; [|split; [|split; [|split]]]].
  - unfold output_of. now rewrite analyze_lines_run.
  - now rewrite length_map, enumerate_length.
  - intros k line H. rewrite nth_error_map.
    rewrite (enumerate_nth lines 1 k line H). cbn [option_map].
    now rewrite Z.add_comm.
  - apply line_reports_all.
  - destruct (visual_widths lines) as [|x xs]; [reflexivity|]. simpl.
    now destruct (_ =? _)%Z.
  - now destruct (visual_widths lines).
Qed.

Lemma report_structure_witness :
  nth_error [u "AB"; []; u "CD"] 1 = Some [] /\
  exists reports,
    nth_error reports 1 = Some (LineReport 2 0 0 0 []).
Proof.
  split; [reflexivity|].
  destruct (report_structure (u "f") [u "AB"; []; u "CD"])
    as (reports & widths & _ & _ & H & _).
  exists reports. exact (H 1%nat [] eq_refl).
Defined.


(** ** Further properties of reading and of the driver *)

Section MoreDriver.

Lemma split_lines_concat s : concat (split_lines s) = s.
Proof.
  induction s as [|c s IH]; [reflexivity|]. simpl.
  destruct (c =? LF)%N.
  - simpl. now rewrite IH.
  - destruct (split_lines s) as [|l ls]; simpl in *; now rewrite <- IH.
Qed.

Lemma split_lines_shape s :
  Forall (fun line =>
            exists body, ~ In LF body /\
              (line = body ++ [LF] \/ (line = body /\ body <> [])))
    (split_lines s).
Proof.
  induction s as [|c s IH]; [constructor|]. simpl.
  destruct (N.eqb_spec c LF) as [->|Hc].
  - constructor; [|exact IH]. exists []. split; [intros []|now left].
  - destruct (split_lines s) as [|l ls].
    + constructor; [|constructor]. exists [c]. split.
      * intros [H|[]]. congruence.
      * right. split; [reflexivity|discriminate].
    + apply Forall_cons_iff in IH as [(body & Hb & Hl) Hls].
      constructor; [|exact Hls]. exists (c :: body). split.
      * intros [H|H]; [congruence|contradiction].
      * destruct Hl as [->|[-> _]]; [now left|right].
        split; [reflexivity|discriminate].
Qed.

Lemma universal_newlines_no_cr s : ~ In CR (universal_newlines s).
Proof.
  remember (length s) as n eqn:Hn. revert s Hn.
  induction n as [n IH] using lt_wf_ind. intros s Hn.
  destruct s as [|c s]; [intros []|]. simpl.
  destruct (N.eqb_spec c CR) as [->|Hc].
  - destruct s as [|c' s].
    + intros [H|[]]. discriminate H.
    + destruct (c' =? LF)%N.
      * intros [H|H]; [discriminate H|].
        revert H. apply (IH (length s)); [subst n; simpl; lia|reflexivity].
      * intros [H|H]; [discriminate H|].
        revert H. apply (IH (length (c' :: s))); [subst n; simpl; lia|reflexivity].
  - intros [H|H]; [congruence|].
    revert H. apply (IH (length s)); [subst n; simpl; lia|reflexivity].
Qed.

Lemma format_d_2 i : (0 <= i < 100)%Z -> length (format_d 2 i) = 2%nat.
Proof.
  intros H.
  assert (A : forallb (fun n => length (format_d 2 (Z.of_nat n)) =? 2)%nat
                (seq 0 100) = true) by (vm_compute; reflexivity).
  rewrite forallb_forall in A. rewrite <- (Z2Nat.id i) by lia.
  apply Nat.eqb_eq, A, in_seq. lia.
Qed.

Lemma format_d_3 i : (0 <= i < 1000)%Z -> length (format_d 3 i) = 3%nat.
Proof.
  intros H.
  assert (A : forallb (fun n => length (format_d 3 (Z.of_nat n)) =? 3)%nat
                (seq 0 1000) = true) by (vm_compute; reflexivity).
  rewrite forallb_forall in A. rewrite <- (Z2Nat.id i) by lia.
  apply Nat.eqb_eq, A, in_seq. lia.
Qed.

End MoreDriver.

(** X13: the lines that the script gets from a file hold no '\r', and a
    '\n' only as their last character; what [rstrip] cuts from such a line
    is that one '\n', so the raw length of a line of a file counts every
    character but the line end.  The lines put together are the text of the
    file. *)
Theorem file_lines (content : str) :
  concat (readlines content) = universal_newlines content /\
  forall line, In line (readlines content) ->
    exists body,
      ~ In LF body /\ ~ In CR body /\
      (line = body ++ [LF] \/ (line = body /\ body <> [])) /\
      rstrip [LF; CR] line = body /\
      raw_len (analyze_line line) = len body.
Proof.
  unfold readlines. split; [apply split_lines_concat|].
  intros line Hline.
  pose proof (split_lines_shape (universal_newlines content)) as Hshape.
  rewrite Forall_forall in Hshape.
  destruct (Hshape line Hline) as (body & Hlf & Hl).
  assert (Hcr : ~ In CR body).
  { intros H. apply (universal_newlines_no_cr content).
    rewrite <- (split_lines_concat (universal_newlines content)).
    apply in_concat. exists line. split; [exact Hline|].
    destruct Hl as [->|[-> _]]; [apply in_or_app; now left|exact H]. }
  assert (Hr : rstrip [LF; CR] line = body).
  { destruct Hl as [->|[-> _]].
    - rewrite rstrip_app_newlines.
      + now apply rstrip_no_newline.
      + apply Forall_cons; [now left|apply Forall_nil].
    - now apply rstrip_no_newline. }
  exists body. repeat split; auto.
  unfold analyze_line. simpl. now rewrite Hr.
Qed.

Lemma file_lines_witness :
  let content := u "ab" ++ [CR; LF] ++ u "c" ++ [CR] ++ u "d" in
  In (u "ab" ++ [LF]) (readlines content) /\
  exists body,
    rstrip [LF; CR] (u "ab" ++ [LF]) = body /\
    raw_len (analyze_line (u "ab" ++ [LF])) = len body.
Proof.
  intros content.
  assert (H : In (u "ab" ++ [LF]) (readlines content)) by (now left).
  split; [exact H|].
  destruct (proj2 (file_lines content) _ H) as (body & _ & _ & _ & H1 & H2).
  exists body. split; [exact H1|exact H2].
Defined.



(** X16: in a report line the visible text starts in the same column, after
    40 characters, as long as the line number and the escape count are
    below 100 and the two lengths are below 1000. *)
Theorem report_line_aligned (i raw visual ansi : Z) (shown : str) :
  (0 <= i < 100)%Z -> (0 <= raw < 1000)%Z ->
  (0 <= visual < 1000)%Z -> (0 <= ansi < 100)%Z ->
  exists head,
    render (LineReport i raw visual ansi shown) = head ++ shown /\
    length head = 40%nat.
Proof.
  intros Hi Hraw Hvisual Hansi.
  exists (u "Line " ++ format_d 2 i ++ u ": raw=" ++ format_d 3 raw ++
          u ", visual=" ++ format_d 3 visual ++ u ", ansi=" ++
          format_d 2 ansi ++ u " | ").
  split.
  - unfold render. now rewrite <- !app_assoc.
  - rewrite !length_app, (format_d_2 i Hi), (format_d_2 ansi Hansi),
      (format_d_3 raw Hraw), (format_d_3 visual Hvisual).
    reflexivity.
Qed.

Lemma report_line_aligned_witness :
  exists head,
    render (LineReport 7 123 45 6 (u "text")) = head ++ u "text" /\
    length head = 40%nat.
Proof.
  apply (report_line_aligned 7 123 45 6 (u "text")); lia.
Defined.

(** ** The script on a standard output that can refuse a text *)

Section Console.

Lemma for_each_app {A} (body : A -> IO unit) (a b : list A) : forall out,
  for_each (a ++ b) body out =
  match for_each a body out with
  | (out', inr _) => for_each b body out'
  | (out', inl e) => (out', inl e)
  end.
Proof.
  induction a as [|x a IH]; intros out; simpl; [reflexivity|].
  unfold bind. destruct (body x out) as [out' [e|[]]]; [reflexivity|apply IH].
Qed.

Lemma for_each_ext {A} (body body' : A -> IO unit) (xs : list A) :
  (forall x out, body x out = body' x out) ->
  forall out, for_each xs body out = for_each xs body' out.
Proof.
  intros H. induction xs as [|x xs IH]; intros out; simpl; [reflexivity|].
  unfold bind. rewrite H. destruct (body' x out) as [out' [e|[]]];
    [reflexivity|apply IH].
Qed.

Lemma for_each_map {A B} (f : A -> B) (body : B -> IO unit) (xs : list A) :
  forall out, for_each (map f xs) body out = for_each xs (fun x => body (f x)) out.
Proof.
  induction xs as [|x xs IH]; intros out; simpl; [reflexivity|].
  unfold bind. destruct (body (f x) out) as [out' [e|[]]]; [reflexivity|apply IH].
Qed.

Lemma write_all_cons con p ps out :
  write_all con (p :: ps) out =
  match con (render p) with
  | None => write_all con ps (out ++ [p])
  | Some e => (out, inl e)
  end.
Proof.
  unfold write_all. simpl. unfold bind, print_on.
  now destruct (con (render p)).
Qed.

Lemma report_widths_on_write con ws out :
  report_widths_on con ws out = write_all con (width_report ws) out.
Proof.
  destruct ws as [|x xs]; [reflexivity|].
  unfold report_widths_on. cbn [truthy Py.min Py.max width_report].
  unfold bind at 1 2, lift. rewrite write_all_cons.
  unfold bind, print_on at 1.
  destruct (con (render (WidthRange _ _))); [reflexivity|].
  destruct (fold_left Z.min xs x =? fold_left Z.max xs x)%Z; cbn [negb];
    rewrite write_all_cons; unfold print_on;
    now destruct (con (render _)).
Qed.

(** The report on the lines of a file is a sequence of print calls, made in
    order up to the first one that standard output refuses. *)
Lemma analyze_lines_on_write con filename lines out :
  analyze_lines_on con filename lines out =
  write_all con (lines_report filename lines) out.
Proof.
  unfold analyze_lines_on, lines_report. rewrite write_all_cons.
  unfold bind at 1, print_on at 1.
  destruct (con (render (Header filename))); [reflexivity|].
  unfold write_all. rewrite for_each_app, for_each_map. unfold bind.
  rewrite (for_each_ext _ (fun x => print_on con (line_report_of x)))
    by now intros [i line] out'.
  destruct (for_each _ _ _) as [out' [e|[]]]; [reflexivity|].
  apply report_widths_on_write.
Qed.

Lemma write_all_spec con ps : forall out,
  exists printed rest,
    ps = printed ++ rest /\
    Forall (fun p => con (render p) = None) printed /\
    ((rest = [] /\ write_all con ps out = (out ++ printed, inr tt)) \/
     (exists p rest' e,
        rest = p :: rest' /\ con (render p) = Some e /\
        write_all con ps out = (out ++ printed, inl e))).
Proof.
  induction ps as [|p ps IH]; intros out.
  - exists [], []. repeat split; [constructor|]. left.
    split; [reflexivity|]. unfold write_all. simpl. unfold ret.
    now rewrite app_nil_r.
  - rewrite write_all_cons. destruct (con (render p)) as [e|] eqn:E.
    + exists [], (p :: ps). repeat split; [constructor|]. right.
      exists p, ps, e. now rewrite app_nil_r.
    + destruct (IH (out ++ [p])) as (printed & rest & -> & Hok & H).
      exists (p :: printed), rest. split; [reflexivity|].
      split; [now constructor|].
      rewrite <- app_assoc in H. exact H.
Qed.

Lemma analyze_frame_on_run con fs filename out :
  analyze_frame_on con fs filename out =
  match fs filename with
  | inl e => (out, inl e)
  | inr content =>
      write_all con (lines_report filename (readlines content)) out
  end.
Proof.
  unfold analyze_frame_on, open_readlines, bind, lift, ret.
  destruct (fs filename); [reflexivity|apply analyze_lines_on_write].
Qed.

(** An exception leaves the loop over the paths only from the print of an
    error line. *)
Lemma process_files_on_escape con fs files : forall out e',
  snd (process_files_on con fs files out) = inl e' ->
  exists f cause,
    In f files /\ con (render (ErrorAnalyzing f cause)) = Some e'.
Proof.
  unfold process_files_on.
  induction files as [|f files IH]; intros out e'; simpl; [discriminate|].
  unfold bind, try_except at 1.
  destruct (analyze_frame_on con fs f out) as [out' [e|[]]].
  - unfold print_on.
    destruct (con (render (ErrorAnalyzing f (message e)))) as [e0|] eqn:E.
    + simpl. intros [= <-]. exists f, (message e). split; [now left|exact E].
    + intros H. destruct (IH _ _ H) as (f' & cause & Hin & Hc).
      exists f', cause. split; [now right|exact Hc].
  - intros H. destruct (IH _ _ H) as (f' & cause & Hin & Hc).
    exists f', cause. split; [now right|exact Hc].
Qed.

Lemma write_all_accepting con :
  (forall text, con text = None) ->
  forall ps out, write_all con ps out = (out ++ ps, inr tt).
Proof.
  intros H ps. induction ps as [|p ps IH]; intros out.
  - unfold write_all. simpl. unfold ret. now rewrite app_nil_r.
  - rewrite write_all_cons, H, IH. now rewrite <- app_assoc.
Qed.

Lemma process_files_on_accepting con fs :
  (forall text, con text = None) ->
  forall files out,
    process_files_on con fs files out = process_files fs files out.
Proof.
  intros H files out. unfold process_files_on, process_files.
  apply for_each_ext. clear out. intros f out. unfold try_except.
  rewrite analyze_frame_on_run, analyze_frame_run.
  destruct (fs f) as [e|content].
  - unfold print_on, print. now rewrite H.
  - now rewrite (write_all_accepting con H).
Qed.

End Console.

(** C8 fails: on a strict UTF-8 standard output the path "frame" U+DCFF
    cannot be printed.  The file is missing, the print of the error line in
    the except clause raises [UnicodeEncodeError], the exception leaves the
    loop, and the next path, "b.ans", is never processed: nothing at all is
    printed. *)
Lemma unprintable_path_escapes :
  let bad := u "frame" ++ [surrogate] in
  (exists e, no_files bad = inl e) /\
  main_on strict_utf8 no_files [u "analyze-frames.py"; bad; u "b.ans"] [] =
    ([], inl UnicodeEncodeError).
Proof. split; [now eexists|reflexivity]. Qed.

(** C8, amended: when reading a path fails and standard output accepts the
    error line, the driver prints one error line, "Error analyzing <path>:
    <cause>", in place of that file's report, and goes on with the paths
    after it, in order.  An exception leaves the loop over the paths only
    from the print of an error line that standard output refuses (the print
    in the except clause is not protected); when standard output accepts
    every error line, none does. *)
Theorem process_files_on_failure (con : console) (fs : filesystem)
    (before after : list str) (filename : str) (e : Exception)
    (out out_before : stdout) :
  fs filename = inl e ->
  con (render (ErrorAnalyzing filename (message e))) = None ->
  process_files_on con fs before out = (out_before, inr tt) ->
  process_files_on con fs (before ++ filename :: after) out =
    process_files_on con fs after
      (out_before ++ [ErrorAnalyzing filename (message e)]) /\
  (forall prog,
     main_on con fs (prog :: before ++ filename :: after) out =
     process_files_on con fs (before ++ filename :: after) out) /\
  (forall files out0 e',
     snd (process_files_on con fs files out0) = inl e' ->
     exists f cause,
       In f files /\ con (render (ErrorAnalyzing f cause)) = Some e') /\
  ((forall f cause, con (render (ErrorAnalyzing f cause)) = None) ->
   forall argv out0, snd (main_on con fs argv out0) = inr tt) /\
  render (ErrorAnalyzing filename (message e)) =
    u "Error analyzing " ++ filename ++ u ": " ++ message e.
Proof.
  intros Hfs Hcon Hbefore. split; [|split; [|split; [|split; [|reflexivity]]]].
  - unfold process_files_on in *. rewrite for_each_app, Hbefore.
    simpl. unfold bind, try_except at 1.
    rewrite analyze_frame_on_run, Hfs. unfold print_on. now rewrite Hcon.
  - intros prog. unfold main_on, files_of_argv, len. simpl length.
    rewrite length_app. simpl length.
    replace (1 <? _)%Z with true by (symmetry; apply Z.ltb_lt; lia).
    reflexivity.
  - apply process_files_on_escape.
  - intros Hall argv out0. unfold main_on.
    destruct (snd (process_files_on con fs (files_of_argv argv) out0))
      as [e'|[]] eqn:E; [|reflexivity].
    apply process_files_on_escape in E as (f & cause & _ & Hc).
    rewrite Hall in Hc. discriminate Hc.
Qed.

Lemma process_files_on_failure_witness :
  let fs : filesystem :=
    fun filename =>
      if list_eq_dec N.eq_dec filename (u "frame.ans")
      then inr (line_1 ++ line_2)
      else inl {| message := u "No such file or directory" |} in
  let out_before := fst (process_files_on strict_utf8 fs [u "frame.ans"] []) in
  fs (u "missing.ans") = inl {| message := u "No such file or directory" |} /\
  strict_utf8
    (render (ErrorAnalyzing (u "missing.ans") (u "No such file or directory"))) =
    None /\
  process_files_on strict_utf8 fs [u "frame.ans"] [] = (out_before, inr tt) /\
  process_files_on strict_utf8 fs
    ([u "frame.ans"] ++ u "missing.ans" :: [u "frame.ans"]) [] =
  process_files_on strict_utf8 fs [u "frame.ans"]
    (out_before ++
     [ErrorAnalyzing (u "missing.ans") (u "No such file or directory")]).
Proof.
  intros fs out_before.
  assert (H1 : fs (u "missing.ans") =
               inl {| message := u "No such file or directory" |})
    by reflexivity.
  assert (H2 : strict_utf8
                 (render (ErrorAnalyzing (u "missing.ans")
                            (message {| message := u "No such file or directory" |}))) =
               None) by reflexivity.
  assert (H3 : process_files_on strict_utf8 fs [u "frame.ans"] [] =
               (out_before, inr tt)) by reflexivity.
  split; [exact H1|]. split; [exact H2|]. split; [exact H3|].
  exact (proj1 (process_files_on_failure strict_utf8 fs [u "frame.ans"]
                  [u "frame.ans"] (u "missing.ans") _ [] out_before H1 H2 H3)).
Defined.

(** X12: in the report of a file, the report line of the line at position
    [k] shows only the first 60 characters of its visible text, while the
    visible length printed in it is that of the whole visible text. *)
Theorem shown_text_truncated (filename : str) (lines : list str)
    (k : nat) (line : str) :
  nth_error lines k = Some line ->
  exists shown rest,
    nth_error (output_of (analyze_lines filename lines)) (S k) =
      Some (LineReport (Z.of_nat k + 1)
              (raw_len (analyze_line line)) (visual_len (analyze_line line))
              (ansi_codes (analyze_line line)) shown) /\
    stripped (analyze_line line) = shown ++ rest /\
    len shown = Z.min 60 (visual_len (analyze_line line)) /\
    visual_len (analyze_line line) = (len shown + len rest)%Z.
Proof.
  intros H.
  exists (firstn 60 (stripped (analyze_line line))),
         (skipn 60 (stripped (analyze_line line))).
  split; [|split; [now rewrite firstn_skipn|]].
  - unfold output_of. rewrite analyze_lines_run. simpl.
    assert (Hk : (k < length (map line_report_of (enumerate lines 1)))%nat).
    { rewrite length_map, enumerate_length. apply nth_error_Some. congruence. }
    rewrite nth_error_app1 by exact Hk.
    rewrite nth_error_map, (enumerate_nth lines 1 k line H). cbn [option_map].
    now rewrite Z.add_comm.
  - rewrite visual_len_stripped. unfold len.
    rewrite length_firstn, length_skipn. lia.
Qed.

Lemma shown_text_truncated_witness :
  let long := repeat 65%N 70 in
  nth_error [u "AB"; long] 1 = Some long /\
  exists shown rest,
    nth_error (output_of (analyze_lines (u "f") [u "AB"; long])) 2 =
      Some (LineReport 2 (raw_len (analyze_line long))
              (visual_len (analyze_line long))
              (ansi_codes (analyze_line long)) shown) /\
    stripped (analyze_line long) = shown ++ rest /\
    len shown = Z.min 60 (visual_len (analyze_line long)) /\
    visual_len (analyze_line long) = (len shown + len rest)%Z.
Proof.
  intros long.
  assert (H : nth_error [u "AB"; long] 1 = Some long) by reflexivity.
  split; [exact H|].
  exact (shown_text_truncated (u "f") [u "AB"; long] 1 long H).
Defined.

(** X14: when reading the file fails, [analyze_frame] raises the exception
    of the read and prints nothing.  When the file is read, it makes the
    print calls of the report in order; it ends normally when standard
    output accepts them all, and otherwise raises the exception of the first
    one that is refused, having printed the calls before it.  Nothing else
    raises: [min] and [max] are called on samples that are not empty. *)
Theorem analyze_frame_on_raises (con : console) (fs : filesystem)
    (filename : str) (out : stdout) :
  (forall e, fs filename = inl e ->
     analyze_frame_on con fs filename out = (out, inl e)) /\
  (forall content, fs filename = inr content ->
     exists printed rest,
       lines_report filename (readlines content) = printed ++ rest /\
       Forall (fun p => con (render p) = None) printed /\
       ((rest = [] /\
         analyze_frame_on con fs filename out = (out ++ printed, inr tt)) \/
        (exists p rest' e,
           rest = p :: rest' /\ con (render p) = Some e /\
           analyze_frame_on con fs filename out = (out ++ printed, inl e)))).
Proof.
  rewrite analyze_frame_on_run. split.
  - now intros e ->.
  - intros content ->. apply write_all_spec.
Qed.

Lemma analyze_frame_on_raises_witness :
  let fs : filesystem := fun _ => inr (u "AB" ++ [LF; surrogate; LF] ++ u "CD") in
  fs (u "f") = inr (u "AB" ++ [LF; surrogate; LF] ++ u "CD") /\
  analyze_frame_on strict_utf8 fs (u "f") [] =
    ([Header (u "f"); LineReport 1 2 2 0 (u "AB")], inl UnicodeEncodeError) /\
  exists printed rest,
    lines_report (u "f") (readlines (u "AB" ++ [LF; surrogate; LF] ++ u "CD")) =
      printed ++ rest /\
    Forall (fun p => strict_utf8 (render p) = None) printed.
Proof.
  intros fs.
  assert (H : fs (u "f") = inr (u "AB" ++ [LF; surrogate; LF] ++ u "CD"))
    by reflexivity.
  split; [exact H|]. split; [reflexivity|].
  destruct (proj2 (analyze_frame_on_raises strict_utf8 fs (u "f") []) _ H)
    as (printed & rest & E & Hok & _).
  exists printed, rest. split; [exact E|exact Hok].
Defined.

(** X15: on a standard output that accepts every text the driver ends
    normally, and what it prints is, path after path in the order of the
    paths, the report of the file or, for a file that cannot be read, the
    one error line; this is the driver with the [print] that never fails. *)
Theorem main_on_accepting (con : console) (fs : filesystem) :
  (forall text, con text = None) ->
  forall argv out,
    main_on con fs argv out =
      (out ++ flat_map (file_output fs) (files_of_argv argv), inr tt) /\
    main_on con fs argv out = main fs argv out.
Proof.
  intros H argv out. unfold main_on, main.
  rewrite (process_files_on_accepting con fs H), process_files_run.
  split; reflexivity.
Qed.

Lemma main_on_accepting_witness :
  let con : console := fun _ => None in
  (forall text, con text = None) /\
  main_on con no_files [u "analyze-frames.py"] [] =
    ([] ++ flat_map (file_output no_files)
             (files_of_argv [u "analyze-frames.py"]), inr tt).
Proof.
  intros con.
  assert (H : forall text, con text = None) by reflexivity.
  split; [exact H|].
  exact (proj1 (main_on_accepting con no_files H [u "analyze-frames.py"] [])).
Defined.
